(** * Series block iteration (package tile)

    A shallow embedding of [series_block_iterator.go]: the orchestrator
    [seriesBlockIter] that walks the series of an [fs.CrossBlockReader] and,
    for each of them, re-targets one cross-block iterator and one series
    frame iterator.

    The orchestrator only talks to its collaborators (the reader, the
    recorder, the cross-block iterator, the frame iterator) through method
    calls on pointers.  The collaborators are therefore an interface
    ([Collaborators]) over an arbitrary world of heap objects, and every
    method call of the orchestrator is written to a call log, so that the
    order and the receivers of the calls can be stated. *)

From stdpp Require Import base numbers option list strings gmap.

Local Open Scope Z_scope.

(** ** Data *)

(** A Go [error]: [None] is [nil]. *)
Definition error : Type := option string.

(** [xtime.UnixNano] is an [int64] count of nanoseconds; the orchestrator
    stores and forwards such values and does no arithmetic on them. *)
Definition UnixNano : Type := Z.

(** The address of a heap object.  A pointer obtained from a constructor is
    never [nil]. *)
Abbreviation ptr := nat.

(** [ident.ID] and [ident.TagIterator] are interface values: [None] is the
    [nil] interface, which is what the zero-valued fields of a fresh
    [seriesBlockIter] hold. *)
Definition ident_ID : Type := option string.
Definition ident_TagIterator : Type := option (list (string * string)).

(** Modelled from the spec: the datapoint [{timestamp, value}] of section 3;
    the [float64] value is carried as its 64-bit pattern. *)
Record Datapoint : Type := mkDatapoint { Timestamp : UnixNano; Value : Z }.

(** Modelled from the spec: what a block's cursor yields when it is read: a
    decoded datapoint, or a read/decode error on a corrupt segment. *)
Inductive encoded : Type :=
| EncDatapoint (dp : Datapoint)
| EncCorrupt (msg : string).

(** Modelled from the spec: [fs.BlockRecord], "an opaque handle to one
    encoded segment for one retention block: a start time, a block size, and
    a readable cursor over encoded datapoints". *)
Record BlockRecord : Type := mkBlockRecord {
  blockStart : UnixNano;
  blockSize : Z;
  segment : list encoded
}.

(** The value of the interface [recorder]: the dynamic type chosen at
    construction and the pointer to the object. *)
Inductive recorder : Type :=
| datapointRecorder (p : ptr)       (* columnar, arrow (arena) backed *)
| flatDatapointRecorder (p : ptr).  (* flat *)

Definition recorder_ptr (r : recorder) : ptr :=
  match r with datapointRecorder p | flatDatapointRecorder p => p end.

Definition is_arrow (r : recorder) : bool :=
  match r with datapointRecorder _ => true | flatDatapointRecorder _ => false end.

(** The fields of [Options] that [NewSeriesBlockIterator] reads. *)
Record Options : Type := mkOptions {
  UseArrow : bool;
  Start : UnixNano;
  FrameSize : UnixNano;
  ReaderIteratorPool : option ptr
}.

(** ** The collaborators *)

(** Method calls the orchestrator makes, with receiver and arguments. *)
Inductive call : Type :=
| Call_reader_Next (r : ptr)
| Call_reader_Err (r : ptr)
| Call_reader_Current (r : ptr)
| Call_newDatapointRecorder
| Call_newFlatDatapointRecorder
| Call_newSeriesFrameIterator (rec : recorder)
| Call_NewCrossBlockIterator (pool : option ptr)
| Call_recorder_release (rec : recorder)
| Call_blockIter_Reset (bi : ptr) (records : list BlockRecord)
| Call_blockIter_Close (bi : ptr)
| Call_iter_Reset (it : ptr) (start step : UnixNano) (source : ptr)
| Call_iter_Close (it : ptr).

(** The methods of the collaborators as transformers of a world [W] of
    objects.  [recorder.release] and [CrossBlockIterator.Close] are called as
    statements and yield nothing; [SeriesFrameIterator.Close] yields the
    [error] that [Close] returns. *)
Class Collaborators (W : Type) : Type := {
  reader_Next : ptr → W → bool * W;
  reader_Current : ptr → W → (ident_ID * ident_TagIterator * list BlockRecord) * W;
  reader_Err : ptr → W → error * W;
  newDatapointRecorder : W → ptr * W;
  newFlatDatapointRecorder : W → ptr * W;
  recorder_release : recorder → W → W;
  newSeriesFrameIterator : recorder → W → ptr * W;
  iter_Reset : ptr → UnixNano → UnixNano → ptr → W → W;
  iter_Close : ptr → W → error * W;
  NewCrossBlockIterator : option ptr → W → ptr * W;
  blockIter_Reset : ptr → list BlockRecord → W → W;
  blockIter_Close : ptr → W → W
}.

(** The world together with the log of the calls made so far. *)
Record Env (W : Type) : Type := mkEnv { world : W; calls : list call }.
Arguments mkEnv {W} _ _.
Arguments world {W} _.
Arguments calls {W} _.

(** Computations that call collaborators. *)
Definition M (W A : Type) : Type := Env W → A * Env W.

#[global] Instance M_ret {W} : MRet (M W) := fun A a e => (a, e).

#[global] Instance M_bind {W} : MBind (M W) :=
  fun A B k m e => let '(a, e') := m e in k a e'.

#[global] Instance M_fmap {W} : FMap (M W) :=
  fun A B f m e => let '(a, e') := m e in (f a, e').

(** A call that yields a result. *)
Definition invoke {W A} (c : call) (f : W → A * W) : M W A :=
  fun e => let '(a, w) := f (world e) in (a, mkEnv w (calls e ++ [c])).

(** A call made as a statement. *)
Definition invoke_ {W} (c : call) (f : W → W) : M W unit :=
  fun e => (tt, mkEnv (f (world e)) (calls e ++ [c])).

(** ** The orchestrator *)

(** The struct [seriesBlockIter].  The reader, the frame iterator and the
    cross-block iterator are held by pointer; the recorder as the interface
    value it was constructed as. *)
Module seriesBlockIter.
Record t : Type := mk {
  reader : ptr;
  err : error;
  exhausted : bool;
  step : UnixNano;
  start : UnixNano;
  recorder : recorder;
  iter : ptr;
  blockIter : ptr;
  tags : ident_TagIterator;
  id : ident_ID
}.
End seriesBlockIter.

Abbreviation seriesBlockIter := seriesBlockIter.t.

Section Orchestrator.

Context {W : Type} `{!Collaborators W}.

(** [NewSeriesBlockIterator]: the recorder is constructed first, then the
    struct literal is evaluated field by field.  [newDatapointRecorder]
    stands for [newDatapointRecorder(memory.NewGoAllocator())]. *)
Definition NewSeriesBlockIterator (reader : ptr) (opts : Options)
  : M W (seriesBlockIter * error) :=
  rec ← (if UseArrow opts
         then datapointRecorder <$>
                invoke Call_newDatapointRecorder newDatapointRecorder
         else flatDatapointRecorder <$>
                invoke Call_newFlatDatapointRecorder newFlatDatapointRecorder);
  it ← invoke (Call_newSeriesFrameIterator rec) (newSeriesFrameIterator rec);
  bi ← invoke (Call_NewCrossBlockIterator (ReaderIteratorPool opts))
              (NewCrossBlockIterator (ReaderIteratorPool opts));
  mret (seriesBlockIter.mk reader None false (FrameSize opts) (Start opts)
                           rec it bi None None,
        None).

(** The method [Next] of [seriesBlockIter]. *)
Definition Next (b : seriesBlockIter) : M W (bool * seriesBlockIter) :=
  if seriesBlockIter.exhausted b || bool_decide (seriesBlockIter.err b ≠ None)
  then mret (false, b)
  else
    more ← invoke (Call_reader_Next (seriesBlockIter.reader b))
                  (reader_Next (seriesBlockIter.reader b));
    if negb more then
      e ← invoke (Call_reader_Err (seriesBlockIter.reader b))
                 (reader_Err (seriesBlockIter.reader b));
      mret (false,
            seriesBlockIter.mk
              (seriesBlockIter.reader b) e true
              (seriesBlockIter.step b) (seriesBlockIter.start b)
              (seriesBlockIter.recorder b) (seriesBlockIter.iter b)
              (seriesBlockIter.blockIter b)
              (seriesBlockIter.tags b) (seriesBlockIter.id b))
    else
      '(id, tags, blockRecords) ←
        invoke (Call_reader_Current (seriesBlockIter.reader b))
               (reader_Current (seriesBlockIter.reader b));
      invoke_ (Call_blockIter_Reset (seriesBlockIter.blockIter b) blockRecords)
              (blockIter_Reset (seriesBlockIter.blockIter b) blockRecords);;
      invoke_ (Call_iter_Reset (seriesBlockIter.iter b)
                               (seriesBlockIter.start b) (seriesBlockIter.step b)
                               (seriesBlockIter.blockIter b))
              (iter_Reset (seriesBlockIter.iter b)
                          (seriesBlockIter.start b) (seriesBlockIter.step b)
                          (seriesBlockIter.blockIter b));;
      mret (true,
            seriesBlockIter.mk
              (seriesBlockIter.reader b)
              (seriesBlockIter.err b) (seriesBlockIter.exhausted b)
              (seriesBlockIter.step b) (seriesBlockIter.start b)
              (seriesBlockIter.recorder b) (seriesBlockIter.iter b)
              (seriesBlockIter.blockIter b)
              tags id).

(** The method [Current] of [seriesBlockIter]. *)
Definition Current (b : seriesBlockIter) : ptr * ident_ID * ident_TagIterator :=
  (seriesBlockIter.iter b, seriesBlockIter.id b, seriesBlockIter.tags b).

(** The method [Close] of [seriesBlockIter]; the receiver is returned as it
    is left. *)
Definition Close (b : seriesBlockIter) : M W (error * seriesBlockIter) :=
  invoke_ (Call_recorder_release (seriesBlockIter.recorder b))
          (recorder_release (seriesBlockIter.recorder b));;
  invoke_ (Call_blockIter_Close (seriesBlockIter.blockIter b))
          (blockIter_Close (seriesBlockIter.blockIter b));;
  e ← invoke (Call_iter_Close (seriesBlockIter.iter b))
             (iter_Close (seriesBlockIter.iter b));
  mret (e, b).

(** The method [Err] of [seriesBlockIter]. *)
Definition Err (b : seriesBlockIter) : error := seriesBlockIter.err b.

(** The guard of [Next]: exhaustion or an error has been latched. *)
Definition latched (b : seriesBlockIter) : bool :=
  seriesBlockIter.exhausted b || bool_decide (seriesBlockIter.err b ≠ None).

(** What a caller can do with the iterator: its four methods, and
    anything at all with the collaborators it can reach (such as driving
    the frame iterator that [Current] hands out). *)
Inductive op : Type :=
| OpNext
| OpCurrent
| OpErr
| OpClose
| OpCaller (f : W → W).

(** One operation; the boolean is the result of [Next], if it was one. *)
Definition exec (o : op) (b : seriesBlockIter) (e : Env W)
  : option bool * seriesBlockIter * Env W :=
  match o with
  | OpNext => let '(more, b', e') := Next b e in (Some more, b', e')
  | OpCurrent => let _ := Current b in (None, b, e)
  | OpErr => let _ := Err b in (None, b, e)
  | OpClose => let '(_, b', e') := Close b e in (None, b', e')
  | OpCaller f => (None, b, mkEnv (f (world e)) (calls e))
  end.

(** A sequence of operations; the results of its [Next] calls are
    collected in order. *)
Fixpoint run (ops : list op) (b : seriesBlockIter) (e : Env W)
  : list bool * seriesBlockIter * Env W :=
  match ops with
  | [] => ([], b, e)
  | o :: ops' =>
      let '(r, b', e') := exec o b e in
      let '(rs, b'', e'') := run ops' b' e' in
      (match r with Some more => more :: rs | None => rs end, b'', e'')
  end.

End Orchestrator.

Arguments op : clear implicits.

(** The first non-nil error of a list of results. *)
Fixpoint firstErr (es : list error) : error :=
  match es with
  | [] => None
  | Some msg :: _ => Some msg
  | None :: es' => firstErr es'
  end.

(** ** The collaborators, modelled from the spec

    The recorder, the cross-block iterator, the series frame iterator and a
    simple reader live on a heap of objects; several pointers may name the
    same object (the frame iterator holds the recorder and, after [Reset],
    the cross-block iterator of the orchestrator). *)

(** Modelled from the spec: the frame index of section 3, "a datapoint with
    timestamp t belongs to frame k = floor((t - start) / step)". *)
Definition frameIndex (start step t : UnixNano) : Z := (t - start) `div` step.

(** Modelled from the spec: a frame, the run of datapoints that falls into
    the half-open interval [[start + k*step, start + (k+1)*step)]. *)
Record Frame : Type := mkFrame { frameIdx : Z; framePoints : list Datapoint }.

(** Modelled from the spec: the recorder of section 4.2, the accumulated
    run and the one-shot flag that makes [Release] idempotent. *)
Record recorderState : Type := mkRecorderState {
  rec_points : list Datapoint;
  rec_released : bool
}.

(** Modelled from the spec: the merge of section 4.1 for two cursors.  The
    earlier block wins ties; a cursor whose next item does not decode is read
    (and fails) when its turn comes. *)
Fixpoint merge2 (a b : list encoded) : list encoded :=
  let fix go (b : list encoded) : list encoded :=
    match a, b with
    | [], _ => b
    | _, [] => a
    | EncCorrupt _ :: _, _ => a
    | EncDatapoint x :: a', EncCorrupt _ :: _ => EncDatapoint x :: merge2 a' b
    | EncDatapoint x :: a', EncDatapoint y :: b' =>
        if Timestamp y <? Timestamp x
        then EncDatapoint y :: go b'
        else EncDatapoint x :: merge2 a' b
    end
  in go b.

(** Modelled from the spec: what [Reset(blockRecords)] of section 4.1 sets
    up, the stream the cursor will yield: the records merged in block order;
    an empty record contributes nothing. *)
Definition merge_records (records : list BlockRecord) : list encoded :=
  foldr (fun r acc => merge2 (segment r) acc) [] records.

(** Modelled from the spec: the state of the cross-block iterator of section
    3, [{active block records, current merge position, exhaustion flag,
    error}]; the active records are kept as the stream still to be read. *)
Record crossBlockIter : Type := mkCrossBlockIter {
  cb_stream : list encoded;
  cb_current : option Datapoint;
  cb_exhausted : bool;
  cb_err : error
}.

(** Modelled from the spec: a cross-block iterator before its first
    [Reset]. *)
Definition crossBlockIter_new : crossBlockIter :=
  mkCrossBlockIter [] None false None.

(** Modelled from the spec: [Reset(blockRecords)] "discards prior merge
    state and begins merging the given ordered collection of block records". *)
Definition crossBlockIter_Reset (records : list BlockRecord) (c : crossBlockIter)
  : crossBlockIter :=
  mkCrossBlockIter (merge_records records) None false None.

(** Modelled from the spec: [Next()] of section 4.1 "returns false when
    every record's cursor is exhausted"; a decode error ends the iteration
    and is latched in [Err()]. *)
Definition crossBlockIter_Next (c : crossBlockIter) : bool * crossBlockIter :=
  if cb_exhausted c || bool_decide (cb_err c ≠ None) then (false, c)
  else match cb_stream c with
       | [] => (false, mkCrossBlockIter [] (cb_current c) true None)
       | EncCorrupt msg :: rest =>
           (false, mkCrossBlockIter rest (cb_current c) false (Some msg))
       | EncDatapoint dp :: rest =>
           (true, mkCrossBlockIter rest (Some dp) false None)
       end.

(** Modelled from the spec: [Close()] "releases any underlying per-block
    cursors". *)
Definition crossBlockIter_Close (c : crossBlockIter) : crossBlockIter :=
  mkCrossBlockIter [] None (cb_exhausted c) (cb_err c).

(** Modelled from the spec: the state of the series frame iterator of
    section 3, [{start instant, step duration, current frame boundary,
    datapoint source, recorder}], with the datapoint buffered for the next
    frame, the frame last produced and the latched error. *)
Record seriesFrameIter : Type := mkSeriesFrameIter {
  fi_recorder : recorder;
  fi_start : UnixNano;
  fi_step : UnixNano;
  fi_source : option ptr;
  fi_buffered : option Datapoint;
  fi_current : option Frame;
  fi_err : error
}.

(** Modelled from the spec: the outcome of filling one frame: the run of
    the frame and the datapoint "buffered for the next frame", or the error
    that ended the series. *)
Inductive filled : Type :=
| FrameDone (points : list Datapoint) (buffered : option Datapoint)
| FrameFailed (msg : string).

(** Modelled from the spec: "datapoints with t < start are invalid input
    and must be rejected", "surfaced through Err() at first occurrence". *)
Definition errBeforeStart : string := "datapoint before start".

(** Modelled from the spec: the loop of [Next()] of section 4.3 on a source
    that is neither exhausted nor failed: "pulls datapoints from the source
    until either (a) the source is exhausted, or (b) a datapoint is found
    whose computed frame index is greater than the current frame's index".
    [acc] is what the recorder holds, [cur] the source's current datapoint,
    [stream] what the source still has to read. *)
Fixpoint fill (start step k : Z) (acc : list Datapoint)
    (cur : option Datapoint) (stream : list encoded) : filled * crossBlockIter :=
  match stream with
  | [] => (FrameDone acc None, mkCrossBlockIter [] cur true None)
  | EncCorrupt msg :: rest =>
      (FrameFailed msg, mkCrossBlockIter rest cur false (Some msg))
  | EncDatapoint dp :: rest =>
      if Timestamp dp <? start
      then (FrameFailed errBeforeStart, mkCrossBlockIter rest (Some dp) false None)
      else if k <? frameIndex start step (Timestamp dp)
      then (FrameDone acc (Some dp), mkCrossBlockIter rest (Some dp) false None)
      else fill start step k (acc ++ [dp]) (Some dp) rest
  end.

(** Modelled from the spec: the same loop on any source; a source that is
    exhausted or has failed yields nothing more. *)
Definition pull_frame (start step k : Z) (acc : list Datapoint)
    (c : crossBlockIter) : filled * crossBlockIter :=
  match cb_err c with
  | Some msg => (FrameFailed msg, c)
  | None =>
      if cb_exhausted c then (FrameDone acc None, c)
      else fill start step k acc (cb_current c) (cb_stream c)
  end.

(** Modelled from the spec: the first datapoint of the next frame: the
    buffered one, or else the next one of the source. *)
Definition first_point (f : seriesFrameIter) (c : crossBlockIter)
  : (error + option Datapoint) * crossBlockIter :=
  match fi_buffered f with
  | Some dp => (inr (Some dp), c)
  | None =>
      let '(more, c') := crossBlockIter_Next c in
      if more then
        match cb_current c' with
        | Some dp =>
            if Timestamp dp <? fi_start f then (inl (Some errBeforeStart), c')
            else (inr (Some dp), c')
        | None => (inr None, c')
        end
      else
        match cb_err c' with
        | Some msg => (inl (Some msg), c')
        | None => (inr None, c')
        end
  end.

(** Modelled from the spec: [Next()] of the frame iterator of section 4.3
    on its parts: the iterator, the run [held] by its recorder and its
    source.  It yields whether a frame was produced and the three parts
    afterwards; it "returns false once the source is exhausted and no
    buffered frame remains", and a series without datapoints has no frame. *)
Definition seriesFrameIter_Next (f : seriesFrameIter) (held : list Datapoint)
    (c : crossBlockIter)
  : bool * seriesFrameIter * list Datapoint * crossBlockIter :=
  let fail e c' :=
    (false,
     mkSeriesFrameIter (fi_recorder f) (fi_start f) (fi_step f) (fi_source f)
                       None (fi_current f) e,
     [], c') in
  match fi_err f with
  | Some _ => (false, f, held, c)
  | None =>
      match first_point f c with
      | (inl e, c') => fail e c'
      | (inr None, c') => fail None c'
      | (inr (Some dp), c') =>
          let k := frameIndex (fi_start f) (fi_step f) (Timestamp dp) in
          match pull_frame (fi_start f) (fi_step f) k [dp] c' with
          | (FrameFailed msg, c'') => fail (Some msg) c''
          | (FrameDone points buffered, c'') =>
              (true,
               mkSeriesFrameIter (fi_recorder f) (fi_start f) (fi_step f)
                                 (fi_source f) buffered
                                 (Some (mkFrame k points)) None,
               points, c'')
          end
      end
  end.

(** Modelled from the spec: the frames a frame iterator produces when it is
    driven to the end of a stream: [Next()] unrolled.  The first component
    lists the frames in order, the second is the error that ended the
    iteration, if any. *)
Fixpoint frames_from (start step k : Z) (acc : list Datapoint)
    (stream : list encoded) : list Frame * error :=
  match stream with
  | [] => ([mkFrame k acc], None)
  | EncCorrupt msg :: _ => ([], Some msg)
  | EncDatapoint dp :: rest =>
      if Timestamp dp <? start then ([], Some errBeforeStart)
      else
        let k' := frameIndex start step (Timestamp dp) in
        if k <? k'
        then let '(fs, e) := frames_from start step k' [dp] rest in
             (mkFrame k acc :: fs, e)
        else frames_from start step k (acc ++ [dp]) rest
  end.

(** Modelled from the spec: the frames of a whole stream; the first
    datapoint opens the first frame, and an empty stream has no frame. *)
Definition frames (start step : Z) (stream : list encoded) : list Frame * error :=
  match stream with
  | [] => ([], None)
  | EncCorrupt msg :: _ => ([], Some msg)
  | EncDatapoint dp :: rest =>
      if Timestamp dp <? start then ([], Some errBeforeStart)
      else frames_from start step (frameIndex start step (Timestamp dp)) [dp] rest
  end.

(** Modelled from the spec: the external per-series reader of section 6,
    which supplies ordered [(id, tags, []BlockRecord)] tuples.  [rd_fail] is
    the error it reports once its series run out ([None] for plain
    exhaustion). *)
Record crossBlockReader : Type := mkCrossBlockReader {
  rd_series : list (string * list (string * string) * list BlockRecord);
  rd_fail : error;
  rd_current : ident_ID * ident_TagIterator * list BlockRecord;
  rd_err : error
}.

(** What lives on the heap. *)
Inductive object : Type :=
| ObjReader (r : crossBlockReader)
| ObjRecorder (r : recorderState)
| ObjCrossBlockIter (c : crossBlockIter)
| ObjFrameIter (f : seriesFrameIter).

(** The heap, the next free address, and the log of the arena: one entry
    for each time the columns of a recorder went back to the allocator. *)
Record SpecWorld : Type := mkSpecWorld {
  heap : gmap ptr object;
  brk : ptr;
  arena_returns : list ptr
}.

(** A constructor call: a new object at a fresh address. *)
Definition alloc (o : object) (w : SpecWorld) : ptr * SpecWorld :=
  (brk w, mkSpecWorld (<[brk w := o]> (heap w)) (S (brk w)) (arena_returns w)).

(** A write through a pointer. *)
Definition store (p : ptr) (o : object) (w : SpecWorld) : SpecWorld :=
  mkSpecWorld (<[p := o]> (heap w)) (brk w) (arena_returns w).

(** Modelled from the spec: the methods of the collaborators on the heap.
    A method called through a pointer that does not name an object of its
    receiver type does nothing. *)
Module spec.

Definition reader_Next (p : ptr) (w : SpecWorld) : bool * SpecWorld :=
  match heap w !! p with
  | Some (ObjReader r) =>
      match rd_series r with
      | (id, tags, records) :: rest =>
          (true, store p (ObjReader (mkCrossBlockReader
                                       rest (rd_fail r)
                                       (Some id, Some tags, records) (rd_err r))) w)
      | [] =>
          (false, store p (ObjReader (mkCrossBlockReader
                                        [] (rd_fail r) (rd_current r) (rd_fail r))) w)
      end
  | _ => (false, w)
  end.

Definition reader_Current (p : ptr) (w : SpecWorld)
  : (ident_ID * ident_TagIterator * list BlockRecord) * SpecWorld :=
  match heap w !! p with
  | Some (ObjReader r) => (rd_current r, w)
  | _ => ((None, None, []), w)
  end.

Definition reader_Err (p : ptr) (w : SpecWorld) : error * SpecWorld :=
  match heap w !! p with
  | Some (ObjReader r) => (rd_err r, w)
  | _ => (None, w)
  end.

(** Both recorder constructors: a recorder that holds nothing and has not
    been released. *)
Definition newRecorder (w : SpecWorld) : ptr * SpecWorld :=
  alloc (ObjRecorder (mkRecorderState [] false)) w.

(** Modelled from the spec: [Release()] of section 4.2, "returns backing
    storage to its origin; idempotent": a no-op for the flat variant; the
    columnar variant hands its columns back to the allocator, once. *)
Definition recorder_release (rec : recorder) (w : SpecWorld) : SpecWorld :=
  match rec with
  | flatDatapointRecorder _ => w
  | datapointRecorder p =>
      match heap w !! p with
      | Some (ObjRecorder r) =>
          if rec_released r then w
          else mkSpecWorld (<[p := ObjRecorder (mkRecorderState [] true)]> (heap w))
                           (brk w) (p :: arena_returns w)
      | _ => w
      end
  end.

(** Modelled from the spec: [Reset()] followed by [Append]s: the recorder
    holds [points] from now on and keeps its backing storage. *)
Definition recorder_hold (rec : recorder) (points : list Datapoint)
    (w : SpecWorld) : SpecWorld :=
  match heap w !! recorder_ptr rec with
  | Some (ObjRecorder r) =>
      store (recorder_ptr rec) (ObjRecorder (mkRecorderState points (rec_released r))) w
  | _ => w
  end.

(** A frame iterator on the given recorder, without a source yet. *)
Definition newSeriesFrameIterator (rec : recorder) (w : SpecWorld)
  : ptr * SpecWorld :=
  alloc (ObjFrameIter (mkSeriesFrameIter rec 0 0 None None None None)) w.

(** Modelled from the spec: [Reset(start, step, datapointSource)] "rebinds
    the windowing state to a new series without reallocating the Recorder". *)
Definition iter_Reset (p : ptr) (start step : UnixNano) (source : ptr)
    (w : SpecWorld) : SpecWorld :=
  match heap w !! p with
  | Some (ObjFrameIter f) =>
      recorder_hold (fi_recorder f) []
        (store p (ObjFrameIter (mkSeriesFrameIter (fi_recorder f) start step
                                                  (Some source) None None None)) w)
  | _ => w
  end.

(** [Next()] of the frame iterator at [p]: it reads from the cross-block
    iterator it was reset with and writes to the recorder it was built with,
    both shared with the orchestrator. *)
Definition iter_Next (p : ptr) (w : SpecWorld) : bool * SpecWorld :=
  match heap w !! p with
  | Some (ObjFrameIter f) =>
      match fi_source f with
      | Some src =>
          match heap w !! src, heap w !! recorder_ptr (fi_recorder f) with
          | Some (ObjCrossBlockIter c), Some (ObjRecorder r) =>
              let '(more, f', held, c') := seriesFrameIter_Next f (rec_points r) c in
              (more,
               recorder_hold (fi_recorder f) held
                 (store src (ObjCrossBlockIter c') (store p (ObjFrameIter f') w)))
          | _, _ => (false, w)
          end
      | None => (false, w)
      end
  | _ => (false, w)
  end.

Definition iter_Current (p : ptr) (w : SpecWorld) : option Frame :=
  match heap w !! p with
  | Some (ObjFrameIter f) => fi_current f
  | _ => None
  end.

Definition iter_Err (p : ptr) (w : SpecWorld) : error :=
  match heap w !! p with
  | Some (ObjFrameIter f) => fi_err f
  | _ => None
  end.

(** Modelled from the spec: [Close()] of section 4.3 "releases the Recorder
    and any buffered state".  Its error is a failure to return arena memory
    (section 7); the allocator of this model takes everything back, so there
    is none. *)
Definition iter_Close (p : ptr) (w : SpecWorld) : error * SpecWorld :=
  match heap w !! p with
  | Some (ObjFrameIter f) =>
      (None,
       recorder_release (fi_recorder f)
         (store p (ObjFrameIter (mkSeriesFrameIter
                                   (fi_recorder f) (fi_start f) (fi_step f)
                                   (fi_source f) None (fi_current f) (fi_err f))) w))
  | _ => (None, w)
  end.

Definition NewCrossBlockIterator (pool : option ptr) (w : SpecWorld)
  : ptr * SpecWorld :=
  alloc (ObjCrossBlockIter crossBlockIter_new) w.

Definition blockIter_Reset (p : ptr) (records : list BlockRecord)
    (w : SpecWorld) : SpecWorld :=
  match heap w !! p with
  | Some (ObjCrossBlockIter c) =>
      store p (ObjCrossBlockIter (crossBlockIter_Reset records c)) w
  | _ => w
  end.

Definition blockIter_Err (p : ptr) (w : SpecWorld) : error :=
  match heap w !! p with
  | Some (ObjCrossBlockIter c) => cb_err c
  | _ => None
  end.

Definition blockIter_Close (p : ptr) (w : SpecWorld) : SpecWorld :=
  match heap w !! p with
  | Some (ObjCrossBlockIter c) =>
      store p (ObjCrossBlockIter (crossBlockIter_Close c)) w
  | _ => w
  end.

End spec.

#[global] Instance SpecCollaborators : Collaborators SpecWorld := {|
  reader_Next := spec.reader_Next;
  reader_Current := spec.reader_Current;
  reader_Err := spec.reader_Err;
  newDatapointRecorder := spec.newRecorder;
  newFlatDatapointRecorder := spec.newRecorder;
  recorder_release := spec.recorder_release;
  newSeriesFrameIterator := spec.newSeriesFrameIterator;
  iter_Reset := spec.iter_Reset;
  iter_Close := spec.iter_Close;
  NewCrossBlockIterator := spec.NewCrossBlockIterator;
  blockIter_Reset := spec.blockIter_Reset;
  blockIter_Close := spec.blockIter_Close
|}.

(** A world that holds only a reader, at address 0. *)
Definition world_with (r : crossBlockReader) : Env SpecWorld :=
  mkEnv (mkSpecWorld {[ 0%nat := ObjReader r ]} 1%nat []) [].

(** The columns of [rec] are not held by the recorder: they went back to
    the allocator, or there never were any (the flat variant). *)
Definition spent (rec : recorder) (w : SpecWorld) : bool :=
  match rec with
  | flatDatapointRecorder _ => true
  | datapointRecorder p =>
      match heap w !! p with
      | Some (ObjRecorder r) => rec_released r
      | _ => true
      end
  end.

(** How many times the columns of the recorder at [p] went back to the
    allocator. *)
Definition times_returned (p : ptr) (w : SpecWorld) : nat :=
  count_occ Nat.eq_dec (arena_returns w) p.



(** ** Sample inputs *)

Definition point (t : UnixNano) : Datapoint := mkDatapoint t 0.

(** Two series; the only block of the first one is corrupt after two
    datapoints. *)
Definition two_series : crossBlockReader :=
  mkCrossBlockReader
    [("a"%string, [("k"%string, "v"%string)],
      [mkBlockRecord 0 10
         [EncDatapoint (point 1); EncDatapoint (point 9); EncCorrupt "bad checksum"]]);
     ("b"%string, [], [mkBlockRecord 0 10 [EncDatapoint (point 3)]])]
    None (None, None, []) None.

(** A reader that fails before its first series. *)
Definition failing_reader : crossBlockReader :=
  mkCrossBlockReader [] (Some "read failure"%string) (None, None, []) None.

Definition arrow_opts : Options := mkOptions true 0 10 None.

(** An iterator over [two_series], freshly constructed, and the same after
    its first [Next()]. *)
Definition fresh : seriesBlockIter * Env SpecWorld :=
  let '(b, _, e) := NewSeriesBlockIterator 0%nat arrow_opts (world_with two_series) in
  (b, e).

Definition positioned : seriesBlockIter * Env SpecWorld :=
  let '(_, b, e) := Next fresh.1 fresh.2 in (b, e).

(** An iterator over [failing_reader], freshly constructed, and the same
    after its first [Next()], which fails. *)
Definition fresh_failing : seriesBlockIter * Env SpecWorld :=
  let '(b, _, e) := NewSeriesBlockIterator 0%nat arrow_opts (world_with failing_reader) in
  (b, e).

Definition failed : seriesBlockIter * Env SpecWorld :=
  let '(_, b, e) := Next fresh_failing.1 fresh_failing.2 in (b, e).

(** What a caller does with the frame iterator of [Current()]: one
    [Next()] on it. *)
Definition drive_frames (b : seriesBlockIter) : SpecWorld → SpecWorld :=
  fun w => (spec.iter_Next (Current b).1.1 w).2.

(** The frames a caller gets from at most [fuel] calls of [Next()] on the
    frame iterator at [it]. *)
Fixpoint drain (fuel : nat) (it : ptr) (w : SpecWorld) : list Frame * SpecWorld :=
  match fuel with
  | O => ([], w)
  | S fuel' =>
      let '(more, w') := spec.iter_Next it w in
      if more then
        let '(fs, w'') := drain fuel' it w' in
        (match spec.iter_Current it w' with Some f => f :: fs | None => fs end, w'')
      else ([], w')
  end.

(** One series in two blocks, the scenario of section 8. *)
Definition one_series : crossBlockReader :=
  mkCrossBlockReader
    [("cpu"%string, [],
      [mkBlockRecord 0 20 (EncDatapoint <$> [point 1; point 9; point 10; point 19]);
       mkBlockRecord 20 20 (EncDatapoint <$> [point 25])])]
    None (None, None, []) None.

(** A busy caller. *)
Definition busy (b : seriesBlockIter) : list (op SpecWorld) :=
  [OpNext; OpErr; OpClose; OpCaller (drive_frames b); OpNext; OpCurrent; OpClose; OpNext].

(** An iterator over [one_series], freshly constructed, and the same after
    its first [Next()]. *)
Definition fresh_one : seriesBlockIter * Env SpecWorld :=
  let '(b, _, e) := NewSeriesBlockIterator 0%nat arrow_opts (world_with one_series) in
  (b, e).

Definition positioned_one : seriesBlockIter * Env SpecWorld :=
  let '(_, b, e) := Next fresh_one.1 fresh_one.2 in (b, e).

(** ** Reading the call log *)

(** How many calls of a log satisfy [p]. *)
Fixpoint count_calls (p : call → bool) (cs : list call) : nat :=
  match cs with
  | [] => O
  | c :: cs' => (if p c then 1 else 0)%nat + count_calls p cs'
  end.

Definition is_reader_Next (c : call) : bool :=
  match c with Call_reader_Next _ => true | _ => false end.

Definition is_reader_Err (c : call) : bool :=
  match c with Call_reader_Err _ => true | _ => false end.

Definition is_reader_Current (c : call) : bool :=
  match c with Call_reader_Current _ => true | _ => false end.

Definition is_blockIter_Reset (c : call) : bool :=
  match c with Call_blockIter_Reset _ _ => true | _ => false end.

Definition is_iter_Reset (c : call) : bool :=
  match c with Call_iter_Reset _ _ _ _ => true | _ => false end.

(** How many [Next()] calls of a run succeeded. *)
Definition successes (rs : list bool) : nat := length (List.filter id rs).

(** The three calls of one [Close()]. *)
Definition close_calls (b : seriesBlockIter) : list call :=
  [Call_recorder_release (seriesBlockIter.recorder b);
   Call_blockIter_Close (seriesBlockIter.blockIter b);
   Call_iter_Close (seriesBlockIter.iter b)].

(** The calls a latched iterator makes for a sequence of operations. *)
Definition calls_when_latched {W} (b : seriesBlockIter) (ops : list (op W))
  : list call :=
  concat (map (fun o => match o with OpClose => close_calls b | _ => [] end) ops).

(** A call on the collaborators the iterator was constructed with, and, for
    a [Reset] of the frame iterator, with the window it was constructed
    with. *)
Definition own_call (b : seriesBlockIter) (c : call) : Prop :=
  match c with
  | Call_reader_Next r | Call_reader_Err r | Call_reader_Current r =>
      r = seriesBlockIter.reader b
  | Call_recorder_release rec => rec = seriesBlockIter.recorder b
  | Call_blockIter_Reset bi _ | Call_blockIter_Close bi =>
      bi = seriesBlockIter.blockIter b
  | Call_iter_Reset it start step source =>
      it = seriesBlockIter.iter b ∧ start = seriesBlockIter.start b ∧
      step = seriesBlockIter.step b ∧ source = seriesBlockIter.blockIter b
  | Call_iter_Close it => it = seriesBlockIter.iter b
  | Call_newDatapointRecorder | Call_newFlatDatapointRecorder
  | Call_newSeriesFrameIterator _ | Call_NewCrossBlockIterator _ => False
  end.

(** * The Prometheus remote write handler (package remote)

    The iterators of [write.go]: [tagIterator] over the labels of one series
    and [promTSIter] over the series of a write request, with the byte
    identifier and the label order they use. *)

(** Go's [int] is 64 bits wide on the platforms the server runs on; [i++]
    and [a - b] wrap around silently. *)
Definition wrap_int (z : Z) : Z := (z + 2 ^ 63) `mod` 2 ^ 64 - 2 ^ 63.

(** [s[i]] on a slice: [None] is the run-time panic for an index out of
    range. *)
Definition index {A : Type} (s : list A) (i : Z) : option A :=
  if i <? 0 then None else s !! Z.to_nat i.

(** A Go [byte]. *)
Abbreviation byte := Byte.byte.

(** [prompb.Label], [prompb.Sample] and [prompb.TimeSeries].  A [[]byte] is
    the list of its bytes, a [float64] its 64-bit pattern; the slices of
    pointers hold no nil pointer, and a nil slice is the empty list. *)
Module Label.
Record t : Type := mk { Name : list byte; Value : list byte }.
End Label.

Module Sample.
Record t : Type := mk { Value : Z; Timestamp : Z }.
End Sample.

Module TimeSeries.
Record t : Type := mk { Labels : list Label.t; Samples : list Sample.t }.
End TimeSeries.

(** [bytes.Compare]: the lexicographic order of byte strings, bytes
    compared as unsigned numbers; the result is -1, 0 or 1. *)
Fixpoint bytes_Compare (a b : list byte) : Z :=
  match a, b with
  | [], [] => 0
  | [], _ :: _ => -1
  | _ :: _, [] => 1
  | x :: a', y :: b' =>
      match N.compare (Byte.to_N x) (Byte.to_N y) with
      | Lt => -1
      | Gt => 1
      | Eq => bytes_Compare a' b'
      end
  end.

(** [bytes.Equal]. *)
Fixpoint bytes_Equal (a b : list byte) : bool :=
  match a, b with
  | [], [] => true
  | x :: a', y :: b' => Byte.eqb x y && bytes_Equal a' b'
  | _, _ => false
  end.

(** The type [labelsByName] with its three methods for [sort.Sort]. *)
Module labelsByName.

Definition Len (l : list Label.t) : Z := Z.of_nat (length l).

Definition Less (l : list Label.t) (i j : Z) : option bool :=
  li ← index l i;
  lj ← index l j;
  Some (bytes_Compare (Label.Name li) (Label.Name lj) <? 0).

Definition Swap (l : list Label.t) (i j : Z) : option (list Label.t) :=
  li ← index l i;
  lj ← index l j;
  Some (<[Z.to_nat j := li]> (<[Z.to_nat i := lj]> l)).

End labelsByName.

(** The struct [reuseableBytesID], an [ident.ID] over borrowed bytes. *)
Module reuseableBytesID.

Record t : Type := mk { bytes : list byte }.

Definition reset (b : list byte) (i : t) : t := mk b.

Definition Bytes (i : t) : list byte := bytes i.

(** [Equal(value)]; [value] is given by what its [Bytes()] returns. *)
Definition Equal (i : t) (value : list byte) : bool :=
  bytes_Equal (bytes i) value.

Definition NoFinalize (i : t) : t := i.

Definition IsNoFinalize (i : t) : bool := false.

Definition Finalize (i : t) : t := i.

Definition String (i : t) : string := String.string_of_list_byte (bytes i).

End reuseableBytesID.

(** The struct [tagIterator].  The iterator owns two identifiers,
    [nameBytes] and [valueBytes], held by pointer; its [tag] is a pair of
    pointers to these two, written once by [newTagIterator].  The tag that
    [Current] returns is therefore a view: what it shows is what the two
    identifiers hold when it is read. *)
Module tagIterator.

Inductive cell : Type := nameCell | valueCell.

Record t : Type := mk {
  numTags : Z;
  idx : Z;
  labels : list Label.t;
  nameBytes : reuseableBytesID.t;
  valueBytes : reuseableBytesID.t;
  tag : cell * cell
}.

(** Reading through a pointer of a tag. *)
Definition deref (i : t) (c : cell) : reuseableBytesID.t :=
  match c with nameCell => nameBytes i | valueCell => valueBytes i end.

(** What a tag shows when it is read in state [i]: name and value. *)
Definition read (i : t) (tg : cell * cell) : list byte * list byte :=
  (reuseableBytesID.Bytes (deref i tg.1), reuseableBytesID.Bytes (deref i tg.2)).

Definition Reset (ls : list Label.t) (i : t) : t :=
  mk (Z.of_nat (length ls)) (-1) ls
     (reuseableBytesID.reset [] (nameBytes i))
     (reuseableBytesID.reset [] (valueBytes i))
     (tag i).

Definition newTagIterator : t :=
  Reset [] (mk 0 0 [] (reuseableBytesID.mk []) (reuseableBytesID.mk [])
               (nameCell, valueCell)).

(** [Next()]; [None] is the panic of [i.labels[i.idx]] out of range. *)
Definition Next (i : t) : option (bool * t) :=
  let idx' := wrap_int (idx i + 1) in
  let next := idx' <? numTags i in
  if negb next
  then Some (false, mk (numTags i) idx' (labels i) (nameBytes i) (valueBytes i) (tag i))
  else
    l ← index (labels i) idx';
    Some (true,
          mk (numTags i) idx' (labels i)
             (reuseableBytesID.reset (Label.Name l) (nameBytes i))
             (reuseableBytesID.reset (Label.Value l) (valueBytes i))
             (tag i)).

Definition Current (i : t) : cell * cell := tag i.

Definition CurrentIndex (i : t) : Z := idx i.

Definition Err (i : t) : error := None.

Definition Close (i : t) : t := Reset [] i.

Definition Len (i : t) : Z := numTags i.

Definition Remaining (i : t) : Z :=
  if idx i <? 0 then numTags i else wrap_int (numTags i - idx i).

(** [Duplicate()]: a new iterator, with identifiers of its own. *)
Definition Duplicate (i : t) : t := Reset (labels i) newTagIterator.

Definition Restart (i : t) : t := Reset (labels i) i.

(** [n] calls of [Next()], as long as none panics; the results come with
    the last state. *)
Fixpoint Nexts (n : nat) (i : t) : option (list bool * t) :=
  match n with
  | O => Some ([], i)
  | S n' =>
      '(r, i') ← Next i;
      '(rs, i'') ← Nexts n' i';
      Some (r :: rs, i'')
  end.

(** The state of an iterator between calls: [numTags] is the number of
    labels, and [idx] has not run below its start. *)
Definition wf (i : t) : Prop :=
  numTags i = Z.of_nat (length (labels i)) ∧ -1 ≤ idx i.

End tagIterator.

(** Three labels, in the order of their names. *)
Definition sample_labels : list Label.t :=
  [Label.mk [Byte.x61] [Byte.x31];
   Label.mk [Byte.x62] [Byte.x32];
   Label.mk [Byte.x62; Byte.x61] [Byte.x33]].

(** What [promTSIter] takes from outside this file: the conversion
    [storage.PromTimestampToTime] to a [time.Time], [sort.Sort] on
    [labelsByName] (an in-place sort that need not be stable), the types
    [models.TagOptions] and [storage.WriteQueryResult] with the zero value
    of the latter, the values an [interface{}] may hold, and the constant
    [xtime.Millisecond]. *)
Class WriteExternals : Type := {
  time_Time : Type;
  PromTimestampToTime : Z → time_Time;
  sort_Sort : list Label.t → list Label.t;
  TagOptions : Type;
  WriteQueryResult : Type;
  WriteQueryResult_zero : WriteQueryResult;
  dynamic : Type;
  Millisecond : Z
}.

(** [ts.Datapoint]. *)
Module tsDatapoint.
Record t `{WriteExternals} : Type := mk { Timestamp : time_Time; Value : Z }.
Arguments mk {_} _ _.
End tsDatapoint.

(** The struct [writeState]; a nil [interface{}] is [None]. *)
Module writeState.
Record t `{WriteExternals} : Type := mk {
  result : WriteQueryResult;
  state : option dynamic
}.
Arguments mk {_} _ _.
End writeState.

(** A slice of the array [preallocResults]: where it starts and how long
    it is.  No slice of [results] is ever appended to or resliced, so its
    capacity plays no part. *)
Record window : Type := mkWindow { win_off : nat; win_len : nat }.

(** The struct [promTSIter].  [results] are windows into one array, kept
    here as [prealloc]; [tagIter] is held by pointer and owned. *)
Module promTSIter.

Section WithExternals.

Context `{WriteExternals}.

Record t : Type := mk {
  idx : Z;
  timeseries : list TimeSeries.t;
  results : list window;
  prealloc : list writeState.t;
  tagOpts : TagOptions;
  datapoints : list tsDatapoint.t;
  tagIter : tagIterator.t
}.

(** The first loop of [NewTimeSeriesIter]. *)
Definition numDatapoints (series : list TimeSeries.t) : nat :=
  foldl (λ n promTS, (n + length (TimeSeries.Samples promTS))%nat) O series.

(** The windows of the second loop: each series gets the next
    [len(promTS.Samples)] elements of what is left of the array. *)
Fixpoint windows (off : nat) (series : list TimeSeries.t) : list window :=
  match series with
  | [] => []
  | promTS :: rest =>
      mkWindow off (length (TimeSeries.Samples promTS))
      :: windows (off + length (TimeSeries.Samples promTS)) rest
  end.

(** The second loop also sorts the labels of every series, in place. *)
Definition sorted (promTS : TimeSeries.t) : TimeSeries.t :=
  TimeSeries.mk (sort_Sort (TimeSeries.Labels promTS)) (TimeSeries.Samples promTS).

Definition NewTimeSeriesIter (series : list TimeSeries.t) (tagOpts : TagOptions)
  : t :=
  mk (-1) (sorted <$> series) (windows O series)
     (replicate (numDatapoints series) (writeState.mk WriteQueryResult_zero None))
     tagOpts [] tagIterator.newTagIterator.

Definition Restart (i : t) : t :=
  mk (-1) (timeseries i) (results i) (prealloc i) (tagOpts i) []
     (tagIterator.Restart (tagIter i)).

(** The element [i.results[i.idx][datapointIdx]] as an index into the
    array; [None] is the panic of either index out of range. *)
Definition slot (i : t) (datapointIdx : Z) : option nat :=
  w ← index (results i) (idx i);
  if (0 <=? datapointIdx) && (datapointIdx <? Z.of_nat (win_len w))
  then Some (win_off w + Z.to_nat datapointIdx)%nat
  else None.

Definition DatapointResult (datapointIdx : Z) (i : t) : option WriteQueryResult :=
  k ← slot i datapointIdx;
  writeState.result <$> prealloc i !! k.

Definition DatapointState (datapointIdx : Z) (i : t) : option (option dynamic) :=
  k ← slot i datapointIdx;
  writeState.state <$> prealloc i !! k.

Definition SetDatapointResult (datapointIdx : Z) (result : WriteQueryResult)
    (i : t) : option t :=
  k ← slot i datapointIdx;
  ws ← prealloc i !! k;
  Some (mk (idx i) (timeseries i) (results i)
           (<[k := writeState.mk result (writeState.state ws)]> (prealloc i))
           (tagOpts i) (datapoints i) (tagIter i)).

Definition SetDatapointState (datapointIdx : Z) (state : option dynamic)
    (i : t) : option t :=
  k ← slot i datapointIdx;
  ws ← prealloc i !! k;
  Some (mk (idx i) (timeseries i) (results i)
           (<[k := writeState.mk (writeState.result ws) state]> (prealloc i))
           (tagOpts i) (datapoints i) (tagIter i)).

Definition TagOptions_ (i : t) : TagOptions := tagOpts i.

(** The loop of [Next] over the samples of the series. *)
Definition convert (samples : list Sample.t) : list tsDatapoint.t :=
  (λ dp, tsDatapoint.mk (PromTimestampToTime (Sample.Timestamp dp))
                        (Sample.Value dp)) <$> samples.

(** [Next()]; [None] is the panic of [i.timeseries[i.idx]] out of range. *)
Definition Next (i : t) : option (bool * t) :=
  let idx' := wrap_int (idx i + 1) in
  let next := idx' <? Z.of_nat (length (timeseries i)) in
  if negb next
  then Some (false,
             mk idx' (timeseries i) (results i) (prealloc i) (tagOpts i)
                (datapoints i) (tagIter i))
  else
    promTS ← index (timeseries i) idx';
    Some (true,
          mk idx' (timeseries i) (results i) (prealloc i) (tagOpts i)
             (convert (TimeSeries.Samples promTS))
             (tagIterator.Reset (TimeSeries.Labels promTS) (tagIter i))).

(** [Current()]: a nil tag iterator is [None], nil datapoints are the empty
    list, and the unit is its number. *)
Definition Current (i : t) : option tagIterator.t * list tsDatapoint.t * Z :=
  if (Z.of_nat (length (timeseries i)) =? 0) || (idx i <? 0)
     || (Z.of_nat (length (timeseries i)) <=? idx i)
  then (None, [], 0)
  else (Some (tagIter i), datapoints i, Millisecond).

Definition Err (i : t) : error := None.

(** [n] calls of [Next()], as long as none panics. *)
Fixpoint Nexts (n : nat) (i : t) : option (list bool * t) :=
  match n with
  | O => Some ([], i)
  | S n' =>
      '(r, i') ← Next i;
      '(rs, i'') ← Nexts n' i';
      Some (r :: rs, i'')
  end.

End WithExternals.

End promTSIter.

(** A sort by name to run examples with: insertion sort. *)
Fixpoint insert_by_name (x : Label.t) (l : list Label.t) : list Label.t :=
  match l with
  | [] => [x]
  | y :: l' =>
      if bytes_Compare (Label.Name y) (Label.Name x) <? 0
      then y :: insert_by_name x l'
      else x :: l
  end.

Definition sort_by_name (l : list Label.t) : list Label.t :=
  foldr insert_by_name [] l.

(** Externals to run examples with: times in nanoseconds, the sort above,
    numbers for results and states. *)
#[global] Instance sample_externals : WriteExternals := {|
  time_Time := Z;
  PromTimestampToTime := λ ms, ms * 1000000;
  sort_Sort := sort_by_name;
  TagOptions := unit;
  WriteQueryResult := Z;
  WriteQueryResult_zero := 0;
  dynamic := Z;
  Millisecond := 2
|}.

(** Two series, with two samples and one. *)
Definition sample_series : list TimeSeries.t :=
  [TimeSeries.mk (reverse sample_labels) [Sample.mk 10 1000; Sample.mk 11 2000];
   TimeSeries.mk sample_labels [Sample.mk 20 3000]].

(** The iterator over [sample_series]. *)
Definition sample_iter : promTSIter.t :=
  promTSIter.NewTimeSeriesIter (H := sample_externals) sample_series tt.

(** ** The handler: [parseRequest] and [ServeHTTP] *)

From stdpp Require pretty.

(** [xhttp.ParseError]: the message of the error it wraps and the HTTP
    status code; [NewParseError(err, code)] builds one. *)
Record ParseError : Type := NewParseError { Inner : string; Code : Z }.

(** One error of an [ingest.BatchError], by what the handler asks of it:
    [client.IsBadRequestError(err)], [xerrors.IsInvalidParams(err)] and
    [err.Error()]. *)
Record batchError : Type := mkBatchError {
  IsBadRequestError : bool;
  IsInvalidParams : bool;
  Error : string
}.

Definition StatusBadRequest : Z := 400.
Definition StatusInternalServerError : Z := 500.

Definition errUnaggregatedStoragePolicySet : string :=
  "storage policy should not be set for unaggregated metrics".

(** What the handler takes from outside this file: the request with its
    headers, [strings.TrimSpace], the two header names, the parsers of the
    metrics type, of the storage policy and of the compressed body,
    [proto.Unmarshal] (yielding the series of the request),
    [time.Time.Sub] and the types of durations, storage policies and
    mapping rules.  An [error] is given by its message. *)
Class HandlerExternals `{WriteExternals} : Type := {
  http_Request : Type;
  Header_Get : http_Request → string → string;
  RemoteAddr : http_Request → string;
  MetricsTypeHeader : string;
  MetricsStoragePolicyHeader : string;
  strings_TrimSpace : string → string;
  MetricsType : Type;
  is_UnaggregatedMetricsType : MetricsType → bool;
  ParseMetricsType : string → string + MetricsType;
  StoragePolicy : Type;
  ParseStoragePolicy : string → string + StoragePolicy;
  MappingRule : Type;
  ParsePromCompressedRequest : http_Request → ParseError + list byte;
  proto_Unmarshal : list byte → string + list TimeSeries.t;
  Duration : Type;
  time_Sub : time_Time → time_Time → Duration
}.

(** The fields of [ingest.WriteOptions] that [parseRequest] writes. *)
Record WriteOptions `{HandlerExternals} : Type := mkWriteOptions {
  DownsampleMappingRules : list MappingRule;
  WriteStoragePolicies : list StoragePolicy;
  DownsampleOverride : bool;
  WriteOverride : bool
}.
Arguments mkWriteOptions {_ _} _ _ _ _.

(** What the handler does to the world, in order: increments of its three
    counters, durations recorded in its histogram, buffers taken from and
    put back to its pool, calls of the body parsers and of the writer, the
    error it logs and the error response it writes. *)
Inductive event `{HandlerExternals} : Type :=
| Inc_writeSuccess
| Inc_writeErrorsServer
| Inc_writeErrorsClient
| RecordDuration (age : Duration)
| Pool_Get
| Pool_Put
| Call_ParsePromCompressedRequest
| Call_Unmarshal
| Call_WriteBatch (opts : WriteOptions)
| Call_nowFn
| Log_Error (remoteAddr : string) (httpResponseStatusCode : Z)
            (numRegularErrors numBadRequestErrors : Z)
            (lastRegularError lastBadRequestErr : string)
| Http_Error (msg : string) (code : Z).

Module PromWriteHandler.

Section WithExternals.

Context `{HandlerExternals}.

(** The zero value of [ingest.WriteOptions]. *)
Definition WriteOptions_zero : WriteOptions := mkWriteOptions [] [] false false.

(** The header part of [parseRequest]: the options, or the error it
    returns before it looks at the body. *)
Definition parseHeaders (r : http_Request) : ParseError + WriteOptions :=
  let v := strings_TrimSpace (Header_Get r MetricsTypeHeader) in
  if bool_decide (v ≠ "")
  then
    match ParseMetricsType v with
    | inl err => inl (NewParseError err StatusBadRequest)
    | inr metricsType =>
        let strPolicy := strings_TrimSpace (Header_Get r MetricsStoragePolicyHeader) in
        if is_UnaggregatedMetricsType metricsType
        then
          if bool_decide (strPolicy ≠ "")
          then inl (NewParseError errUnaggregatedStoragePolicySet StatusBadRequest)
          else inr (mkWriteOptions [] [] true false)
        else
          match ParseStoragePolicy strPolicy with
          | inl err =>
              inl (NewParseError ("could not parse storage policy: " +:+ err)
                                 StatusBadRequest)
          | inr parsed => inr (mkWriteOptions [] [parsed] true true)
          end
    end
  else inr WriteOptions_zero.

(** [parseRequest]: the request (nil is [None]), the options, the error
    (nil is [None]), and what it did on the way.  The buffer goes back to
    the pool when the function returns. *)
Definition parseRequest (r : http_Request)
  : option (list TimeSeries.t) * WriteOptions * option ParseError * list event :=
  match parseHeaders r with
  | inl err => (None, WriteOptions_zero, Some err, [])
  | inr opts =>
      match ParsePromCompressedRequest r with
      | inl err =>
          (None, WriteOptions_zero, Some err,
           [Pool_Get; Call_ParsePromCompressedRequest; Pool_Put])
      | inr dst =>
          match proto_Unmarshal dst with
          | inl err =>
              (None, WriteOptions_zero, Some (NewParseError err StatusBadRequest),
               [Pool_Get; Call_ParsePromCompressedRequest; Call_Unmarshal; Pool_Put])
          | inr req =>
              (Some req, opts, None,
               [Pool_Get; Call_ParsePromCompressedRequest; Call_Unmarshal; Pool_Put])
          end
      end
  end.

(** The loop of [ServeHTTP] over the errors of the batch: the two counts
    and the two last messages. *)
Definition tally_errors (errs : list batchError) : Z * string * Z * string :=
  foldl (λ '(numRegular, lastRegularErr, numBadRequest, lastBadRequestErr) err,
           if IsBadRequestError err
           then (numRegular, lastRegularErr, numBadRequest + 1, Error err)
           else if IsInvalidParams err
           then (numRegular, lastRegularErr, numBadRequest + 1, Error err)
           else (numRegular + 1, Error err, numBadRequest, lastBadRequestErr))
        (0, "", 0, "") errs.

(** The message of the error response. *)
Definition resultErr (numRegular : Z) (lastRegularErr : string)
    (numBadRequest : Z) (lastBadRequestErr : string) : string :=
  let resultErr :=
    if bool_decide (lastRegularErr ≠ "")
    then "retryable_errors: count=" +:+ pretty.pretty numRegular +:+ ", last="
         +:+ lastRegularErr
    else "" in
  if bool_decide (lastBadRequestErr ≠ "")
  then
    let sep := if bool_decide (lastRegularErr ≠ "") then ", " else "" in
    resultErr +:+ sep +:+ "bad_request_errors: count=" +:+ pretty.pretty numBadRequest
    +:+ ", last=" +:+ lastBadRequestErr
  else resultErr.

(** The loops of [ServeHTTP] that record the age of every sample. *)
Definition record_latency (now : time_Time) (series : list TimeSeries.t)
  : list event :=
  promTS ← series;
  sample ← TimeSeries.Samples promTS;
  [RecordDuration (time_Sub now (PromTimestampToTime (Sample.Timestamp sample)))].

(** [ServeHTTP], for the request [r], with what [WriteBatch] returns for
    the iterator and options it is given (nil is [None]) and what [nowFn]
    returns.  [None] is the panic of reading the series of a nil request. *)
Definition ServeHTTP (tagOptions : TagOptions)
    (WriteBatch : promTSIter.t → WriteOptions → option (list batchError))
    (now : time_Time) (r : http_Request) : option (list event) :=
  let '(req, opts, rErr, parsed) := parseRequest r in
  match rErr with
  | Some rErr =>
      Some (parsed ++ [Inc_writeErrorsClient; Http_Error (Inner rErr) (Code rErr)])
  | None =>
      series ← req;
      let batchErr :=
        WriteBatch (promTSIter.NewTimeSeriesIter series tagOptions) opts in
      let written :=
        parsed ++ [Call_WriteBatch opts; Call_nowFn] ++ record_latency now series in
      match batchErr with
      | Some errs =>
          let '(numRegular, lastRegularErr, numBadRequest, lastBadRequestErr) :=
            tally_errors errs in
          let status :=
            if bool_decide (numBadRequest = Z.of_nat (length errs))
            then StatusBadRequest else StatusInternalServerError in
          Some (written ++
                [if bool_decide (numBadRequest = Z.of_nat (length errs))
                 then Inc_writeErrorsClient else Inc_writeErrorsServer;
                 Log_Error (RemoteAddr r) status numRegular numBadRequest
                           lastRegularErr lastBadRequestErr;
                 Http_Error (resultErr numRegular lastRegularErr
                                       numBadRequest lastBadRequestErr)
                            status])
      | None => Some (written ++ [Inc_writeSuccess])
      end
  end.

End WithExternals.

End PromWriteHandler.

(** Reading the events of the handler. *)
Section HandlerEvents.

Context `{HandlerExternals}.

Definition is_counter (ev : event) : bool :=
  match ev with
  | Inc_writeSuccess | Inc_writeErrorsServer | Inc_writeErrorsClient => true
  | _ => false
  end.

Definition is_RecordDuration (ev : event) : bool :=
  match ev with RecordDuration _ => true | _ => false end.

Definition is_Pool_Get (ev : event) : bool :=
  match ev with Pool_Get => true | _ => false end.

Definition is_Pool_Put (ev : event) : bool :=
  match ev with Pool_Put => true | _ => false end.

Definition is_WriteBatch (ev : event) : bool :=
  match ev with Call_WriteBatch _ => true | _ => false end.

(** The status codes of the error responses written. *)
Definition response_codes (evs : list event) : list Z :=
  ev ← evs; match ev with Http_Error _ code => [code] | _ => [] end.

(** An error of the batch that counts as a bad request. *)
Definition is_bad_request (err : batchError) : bool :=
  IsBadRequestError err || IsInvalidParams err.

End HandlerEvents.

(** Externals to run examples with: a request is its two header values and
    its body; the body parses when it is not empty; the metrics types are
    "unaggregated" and "aggregated", the storage policies non-empty
    strings. *)
#[global] Instance sample_handler_externals : HandlerExternals := {|
  http_Request := string * string * list byte;
  Header_Get := λ r name,
    if String.eqb name "M3-Metrics-Type" then r.1.1
    else if String.eqb name "M3-Storage-Policy" then r.1.2 else "";
  RemoteAddr := λ _, "10.0.0.1:4242";
  MetricsTypeHeader := "M3-Metrics-Type";
  MetricsStoragePolicyHeader := "M3-Storage-Policy";
  strings_TrimSpace := λ s, s;
  MetricsType := bool;
  is_UnaggregatedMetricsType := λ t, t;
  ParseMetricsType := λ v,
    if String.eqb v "unaggregated" then inr true
    else if String.eqb v "aggregated" then inr false
    else inl "invalid metrics type";
  StoragePolicy := string;
  ParseStoragePolicy := λ s,
    if String.eqb s "" then inl "invalid storage policy" else inr s;
  MappingRule := unit;
  ParsePromCompressedRequest := λ r,
    match r.2 with
    | [] => inl (NewParseError "empty request body" 400)
    | _ => inr r.2
    end;
  proto_Unmarshal := λ _, inr sample_series;
  Duration := Z;
  time_Sub := λ a b, a - b
|}.

(** A writer that fails on every sample of the first series with a bad
    request, and one that also fails once for another reason. *)
Definition rejecting_writer
  : promTSIter.t → WriteOptions → option (list batchError) :=
  λ _ _, Some [mkBatchError true false "too old"; mkBatchError false true "bad tag"].

Definition failing_writer
  : promTSIter.t → WriteOptions → option (list batchError) :=
  λ _ _, Some [mkBatchError true false "too old"; mkBatchError false false "timeout"].

(** An aggregated request with a storage policy and a body. *)
Definition sample_request : string * string * list byte :=
  ("aggregated"%string, "1m:40d"%string, [Byte.x01]).

(** The options [parseRequest] returns for [sample_request]. *)
Definition sample_options : @WriteOptions sample_externals sample_handler_externals :=
  @mkWriteOptions sample_externals sample_handler_externals
                  [] ["1m:40d"%string] true true.


(** * Properties *)

(** ** The model of the collaborators on the scenarios of the spec *)

(** Merge ordering: two disjoint blocks are read one after the other. *)
Example merge_ordering :
  merge_records
    [mkBlockRecord 0 10 (EncDatapoint <$> [mkDatapoint 2 0; mkDatapoint 5 0; mkDatapoint 8 0]);
     mkBlockRecord 10 10 (EncDatapoint <$> [mkDatapoint 11 0; mkDatapoint 15 0])]
  = EncDatapoint <$> [mkDatapoint 2 0; mkDatapoint 5 0; mkDatapoint 8 0;
                      mkDatapoint 11 0; mkDatapoint 15 0].
Proof. reflexivity. Qed.

(** Overlap tolerance: the merged cursor never goes back in time. *)
Example merge_overlap :
  merge_records
    [mkBlockRecord 0 10 (EncDatapoint <$> [mkDatapoint 7 1; mkDatapoint 9 1]);
     mkBlockRecord 10 10 (EncDatapoint <$> [mkDatapoint 8 2; mkDatapoint 12 2])]
  = EncDatapoint <$> [mkDatapoint 7 1; mkDatapoint 8 2; mkDatapoint 9 1; mkDatapoint 12 2].
Proof. reflexivity. Qed.

(** The end-to-end scenario of section 8: step 10, datapoints at 1, 9, 10,
    19, 25 give three frames. *)
Example frames_end_to_end :
  frames 0 10 (EncDatapoint <$> [mkDatapoint 1 0; mkDatapoint 9 0; mkDatapoint 10 0;
                                 mkDatapoint 19 0; mkDatapoint 25 0])
  = ([mkFrame 0 [mkDatapoint 1 0; mkDatapoint 9 0];
      mkFrame 1 [mkDatapoint 10 0; mkDatapoint 19 0];
      mkFrame 2 [mkDatapoint 25 0]], None).
Proof. reflexivity. Qed.

(** Sparse skip: only frames that hold a datapoint are produced. *)
Example frames_sparse :
  frames 0 10 (EncDatapoint <$> [mkDatapoint 3 0; mkDatapoint 31 0])
  = ([mkFrame 0 [mkDatapoint 3 0]; mkFrame 3 [mkDatapoint 31 0]], None).
Proof. reflexivity. Qed.

(** ** The orchestrator, for all collaborators *)

Section OrchestratorFacts.

Context {W : Type} `{!Collaborators W}.

Implicit Types (b : seriesBlockIter) (e : Env W) (o : op W).

(** Unfolding [Next] on its guard. *)
Lemma Next_guard b e :
  latched b = true → Next b e = (false, b, e).
Proof.
  unfold latched, Next. intros ->. reflexivity.
Qed.

(** [Next] past its guard, as the source's three cases. *)
Lemma Next_unguarded b e :
  latched b = false →
  Next b e =
  let '(more, w1) := reader_Next (seriesBlockIter.reader b) (world e) in
  let c1 := calls e ++ [Call_reader_Next (seriesBlockIter.reader b)] in
  if more then
    let '(id, tags, records, w2) :=
      reader_Current (seriesBlockIter.reader b) w1 in
    (true,
     seriesBlockIter.mk
       (seriesBlockIter.reader b) (seriesBlockIter.err b)
       (seriesBlockIter.exhausted b) (seriesBlockIter.step b)
       (seriesBlockIter.start b) (seriesBlockIter.recorder b)
       (seriesBlockIter.iter b) (seriesBlockIter.blockIter b) tags id,
     mkEnv (iter_Reset (seriesBlockIter.iter b) (seriesBlockIter.start b)
              (seriesBlockIter.step b) (seriesBlockIter.blockIter b)
              (blockIter_Reset (seriesBlockIter.blockIter b) records w2))
           (c1 ++ [Call_reader_Current (seriesBlockIter.reader b);
                   Call_blockIter_Reset (seriesBlockIter.blockIter b) records;
                   Call_iter_Reset (seriesBlockIter.iter b)
                     (seriesBlockIter.start b) (seriesBlockIter.step b)
                     (seriesBlockIter.blockIter b)]))
  else
    let '(err, w2) := reader_Err (seriesBlockIter.reader b) w1 in
    (false,
     seriesBlockIter.mk
       (seriesBlockIter.reader b) err true (seriesBlockIter.step b)
       (seriesBlockIter.start b) (seriesBlockIter.recorder b)
       (seriesBlockIter.iter b) (seriesBlockIter.blockIter b)
       (seriesBlockIter.tags b) (seriesBlockIter.id b),
     mkEnv w2 (c1 ++ [Call_reader_Err (seriesBlockIter.reader b)])).
Proof.
  unfold latched, Next. intros ->.
  unfold mbind, M_bind, invoke, invoke_, mret, M_ret. simpl.
  destruct (reader_Next _ _) as [[] w1]; simpl.
  - destruct (reader_Current _ _) as [[[id tags] records] w2]; simpl.
    rewrite <- !app_assoc. reflexivity.
  - destruct (reader_Err _ _) as [err w2]; simpl. reflexivity.
Qed.

(** A [Next] that returns false leaves the iterator latched. *)
Lemma Next_false_latches b e b' e' :
  Next b e = (false, b', e') → latched b' = true.
Proof.
  destruct (latched b) eqn:Hl.
  - rewrite Next_guard by done. intros [= <- <-]. done.
  - rewrite Next_unguarded by done.
    destruct (reader_Next _ _) as [[] w1]; simpl.
    + destruct (reader_Current _ _) as [[[id tags] records] w2]. discriminate.
    + destruct (reader_Err _ _) as [err w2]. intros [= <- <-]. reflexivity.
Qed.

(** [Close] never writes to the iterator. *)
Lemma Close_receiver b e : (Close b e).1.2 = b.
Proof.
  unfold Close, mbind, M_bind, invoke, invoke_, mret, M_ret. simpl.
  destruct (iter_Close _ _). reflexivity.
Qed.

(** On a latched iterator no operation changes the iterator, and [Next]
    yields false. *)
Lemma exec_latched o b e :
  latched b = true →
  (exec o b e).1.2 = b ∧ (exec o b e).1.1 ≠ Some true.
Proof.
  intros Hl. destruct o; simpl; try done.
  - rewrite Next_guard by done. done.
  - pose proof (Close_receiver b e) as Hc.
    destruct (Close b e) as [[r b'] e']. simpl in *. done.
Qed.

Lemma run_latched ops b e :
  latched b = true →
  (run ops b e).1.2 = b ∧ Forall (λ more, more = false) (run ops b e).1.1.
Proof.
  intros Hl. revert e. induction ops as [|o ops IH]; intros e; simpl.
  - done.
  - destruct (exec_latched o b e Hl) as [Hb Hr].
    destruct (exec o b e) as [[r b'] e']. simpl in *. subst b'.
    destruct (IH e') as [Hb' Hrs].
    destruct (run ops b e') as [[rs b''] e'']. simpl in *.
    split; [done|].
    destruct r as [[]|]; try done. by constructor.
Qed.


(** Only [Next] writes to the iterator, and only to four of its fields:
    the reader, the window and the three collaborators stay as
    constructed. *)
Lemma exec_fixed_fields o b e :
  let b' := (exec o b e).1.2 in
  seriesBlockIter.reader b' = seriesBlockIter.reader b ∧
  seriesBlockIter.start b' = seriesBlockIter.start b ∧
  seriesBlockIter.step b' = seriesBlockIter.step b ∧
  seriesBlockIter.recorder b' = seriesBlockIter.recorder b ∧
  seriesBlockIter.iter b' = seriesBlockIter.iter b ∧
  seriesBlockIter.blockIter b' = seriesBlockIter.blockIter b.
Proof.
  destruct o; simpl; try done.
  - destruct (latched b) eqn:Hl.
    + rewrite Next_guard by done. done.
    + rewrite Next_unguarded by done.
      destruct (reader_Next _ _) as [[] w1]; simpl.
      * destruct (reader_Current _ _) as [[[id tags] records] w2]. done.
      * destruct (reader_Err _ _) as [err w2]. done.
  - pose proof (Close_receiver b e) as Hc.
    destruct (Close b e) as [[r b'] e']. simpl in *. by subst.
Qed.

Lemma run_fixed_fields ops b e :
  let b' := (run ops b e).1.2 in
  seriesBlockIter.reader b' = seriesBlockIter.reader b ∧
  seriesBlockIter.start b' = seriesBlockIter.start b ∧
  seriesBlockIter.step b' = seriesBlockIter.step b ∧
  seriesBlockIter.recorder b' = seriesBlockIter.recorder b ∧
  seriesBlockIter.iter b' = seriesBlockIter.iter b ∧
  seriesBlockIter.blockIter b' = seriesBlockIter.blockIter b.
Proof.
  revert b e. induction ops as [|o ops IH]; intros b e; simpl.
  - done.
  - pose proof (exec_fixed_fields o b e) as Hx.
    destruct (exec o b e) as [[r b1] e1]. simpl in Hx.
    specialize (IH b1 e1).
    destruct (run ops b1 e1) as [[rs b2] e2]. simpl in *.
    destruct Hx as (?&?&?&?&?&?), IH as (?&?&?&?&?&?).
    split_and!; congruence.
Qed.

(** An operation other than a successful [Next] leaves what [Current]
    returns as it was. *)
Lemma exec_Current o b e :
  (exec o b e).1.1 ≠ Some true → Current (exec o b e).1.2 = Current b.
Proof.
  destruct o; simpl; try done.
  - destruct (latched b) eqn:Hl.
    + rewrite Next_guard by done. done.
    + rewrite Next_unguarded by done.
      destruct (reader_Next _ _) as [[] w1]; simpl.
      * destruct (reader_Current _ _) as [[[id tags] records] w2]. done.
      * destruct (reader_Err _ _) as [err w2]. done.
  - pose proof (Close_receiver b e) as Hc.
    destruct (Close b e) as [[r b'] e']. simpl in *. by subst.
Qed.

Lemma run_Current ops b e :
  Forall (λ more, more = false) (run ops b e).1.1 →
  Current (run ops b e).1.2 = Current b.
Proof.
  revert b e. induction ops as [|o ops IH]; intros b e; simpl.
  - done.
  - pose proof (exec_Current o b e) as Hx.
    destruct (exec o b e) as [[r b1] e1]. simpl in Hx.
    specialize (IH b1 e1).
    destruct (run ops b1 e1) as [[rs b2] e2]. simpl in *.
    intros Hrs. rewrite IH.
    + apply Hx. destruct r as [[]|]; try done. by inversion Hrs.
    + destruct r as [[]|]; try done; by inversion Hrs.
Qed.

(** The orchestrator keeps no flag of its own for the release: each
    [Close()] calls [release] on the recorder again. *)
Lemma Close_twice_calls b e :
  let '(_, b1, e1) := Close b e in
  calls (Close b1 e1).2 =
    calls e ++ [Call_recorder_release (seriesBlockIter.recorder b);
                Call_blockIter_Close (seriesBlockIter.blockIter b);
                Call_iter_Close (seriesBlockIter.iter b);
                Call_recorder_release (seriesBlockIter.recorder b);
                Call_blockIter_Close (seriesBlockIter.blockIter b);
                Call_iter_Close (seriesBlockIter.iter b)].
Proof.
  unfold Close, mbind, M_bind, invoke, invoke_, mret, M_ret. simpl.
  destruct (iter_Close _ _) as [r1 w3]; simpl.
  destruct (iter_Close _ _) as [r2 w6]; simpl.
  by rewrite <- !app_assoc.
Qed.

(** C1: once [Next()] has returned false, whatever the caller does next,
    every later [Next()] returns false as well and [Err()] keeps returning
    the error that was latched. *)
Theorem Next_false_is_final b e b' e' (ops : list (op W)) :
  Next b e = (false, b', e') →
  let '(rs, b'', e'') := run ops b' e' in
  Forall (λ more, more = false) rs ∧
  (Next b'' e'').1.1 = false ∧
  Err b'' = Err b'.
Proof.
  intros Hn. apply Next_false_latches in Hn.
  destruct (run_latched ops b' e' Hn) as [Hb Hrs].
  destruct (run ops b' e') as [[rs b''] e'']. simpl in *. subst b''.
  rewrite Next_guard by done. done.
Qed.

(** C2, as the code has it: [Err()] is nil after construction; an
    unlatched [Next()] that sees the reader's [Next()] return false returns
    false, latches, and makes [Err()] the reader's [Err()]; and no other
    operation, in no other state, changes [Err()].  No error of the
    cross-block iterator or of the frame iterator is read. *)
Theorem Err_only_from_reader :
  (∀ reader opts (e : Env W),
      Err (NewSeriesBlockIterator reader opts e).1.1 = None) ∧
  (∀ b e w1,
      latched b = false →
      reader_Next (seriesBlockIter.reader b) (world e) = (false, w1) →
      (Next b e).1.1 = false ∧
      latched (Next b e).1.2 = true ∧
      Err (Next b e).1.2 = (reader_Err (seriesBlockIter.reader b) w1).1) ∧
  (∀ o b e,
      Err (exec o b e).1.2 = Err b ∨
      (o = OpNext ∧ latched b = false ∧
       ∃ w1, reader_Next (seriesBlockIter.reader b) (world e) = (false, w1) ∧
             Err (exec o b e).1.2 = (reader_Err (seriesBlockIter.reader b) w1).1)) ∧
  (∀ (ops : list (op W)) b e,
      Forall (λ more, more = true) (run ops b e).1.1 →
      Err (run ops b e).1.2 = Err b).
Proof.
  assert (Hstep : ∀ o b e,
             Err (exec o b e).1.2 = Err b ∨
             (o = OpNext ∧ latched b = false ∧ (exec o b e).1.1 = Some false ∧
              ∃ w1, reader_Next (seriesBlockIter.reader b) (world e) = (false, w1) ∧
                    Err (exec o b e).1.2
                    = (reader_Err (seriesBlockIter.reader b) w1).1)).
  { intros o b e. destruct o; simpl; try (by left).
    - destruct (latched b) eqn:Hl.
      + rewrite Next_guard by done. by left.
      + rewrite Next_unguarded by done.
        destruct (reader_Next _ _) as [[] w1] eqn:Hr; simpl.
        * destruct (reader_Current _ _) as [[[id tags] records] w2]. by left.
        * right. destruct (reader_Err _ _) as [err w2] eqn:He. simpl.
          split_and!; try done. exists w1. by rewrite He.
    - pose proof (Close_receiver b e) as Hc.
      destruct (Close b e) as [[r b'] e']. simpl in *. subst. by left. }
  split_and!.
  - intros reader opts e.
    unfold NewSeriesBlockIterator, mbind, M_bind, fmap, M_fmap, invoke, mret, M_ret.
    destruct (UseArrow opts); simpl.
    + destruct (newDatapointRecorder _) as [p w1]; simpl.
      destruct (newSeriesFrameIterator _ _) as [it w2]; simpl.
      destruct (NewCrossBlockIterator _ _) as [bi w3]; done.
    + destruct (newFlatDatapointRecorder _) as [p w1]; simpl.
      destruct (newSeriesFrameIterator _ _) as [it w2]; simpl.
      destruct (NewCrossBlockIterator _ _) as [bi w3]; done.
  - intros b e w1 Hl Hr. rewrite Next_unguarded by done. rewrite Hr.
    destruct (reader_Err _ _) as [err w2]. done.
  - intros o b e. destruct (Hstep o b e) as [H|(?&?&?&?)]; [by left|by right].
  - intros ops. induction ops as [|o ops IH]; intros b e; simpl; [done|].
    pose proof (Hstep o b e) as Hx.
    destruct (exec o b e) as [[r b1] e1]. simpl in Hx.
    specialize (IH b1 e1).
    destruct (run ops b1 e1) as [[rs b2] e2]. simpl in *.
    intros Hrs.
    destruct Hx as [Hx|(_ & _ & -> & _)].
    + rewrite <- Hx. apply IH. destruct r; [by inversion Hrs|done].
    + by inversion Hrs.
Qed.

(** C3: in every state [Close()] releases the recorder, then closes the
    cross-block iterator, then closes the frame iterator, each of them
    unconditionally, and returns the first non-nil error among the three:
    the release and the close of the cross-block iterator yield none, so it
    is the frame iterator's. *)
Theorem Close_releases_all_three b e :
  let w1 := recorder_release (seriesBlockIter.recorder b) (world e) in
  let w2 := blockIter_Close (seriesBlockIter.blockIter b) w1 in
  let r3 := iter_Close (seriesBlockIter.iter b) w2 in
  Close b e =
    (firstErr [None; None; r3.1], b,
     mkEnv r3.2
           (calls e ++ [Call_recorder_release (seriesBlockIter.recorder b);
                        Call_blockIter_Close (seriesBlockIter.blockIter b);
                        Call_iter_Close (seriesBlockIter.iter b)])).
Proof.
  unfold Close, mbind, M_bind, invoke, invoke_, mret, M_ret. simpl.
  destruct (iter_Close _ _) as [[msg|] w3]; simpl;
    rewrite <- !app_assoc; reflexivity.
Qed.

(** C4, as the code has it: [NewSeriesBlockIterator] validates nothing; for
    every options value it returns a nil error and an iterator whose step
    is the given [FrameSize], whatever its sign. *)
Theorem NewSeriesBlockIterator_never_fails reader opts (e : Env W) :
  let '(b, err, _) := NewSeriesBlockIterator reader opts e in
  err = None ∧
  seriesBlockIter.step b = FrameSize opts ∧
  seriesBlockIter.start b = Start opts.
Proof.
  unfold NewSeriesBlockIterator, mbind, M_bind, fmap, M_fmap, invoke, mret, M_ret.
  destruct (UseArrow opts); simpl.
  - destruct (newDatapointRecorder _) as [p w1]; simpl.
    destruct (newSeriesFrameIterator _ _) as [it w2]; simpl.
    destruct (NewCrossBlockIterator _ _) as [bi w3]; done.
  - destruct (newFlatDatapointRecorder _) as [p w1]; simpl.
    destruct (newSeriesFrameIterator _ _) as [it w2]; simpl.
    destruct (NewCrossBlockIterator _ _) as [bi w3]; done.
Qed.

(** C5: when the reader advances, [Next()] takes [(id, tags,
    blockRecords)] from the reader's [Current()], resets the cross-block
    iterator it already has with those records, resets the frame iterator
    it already has with the configured start and step and that cross-block
    iterator as source, and returns true; [Current()] then returns that
    frame iterator, that id and those tags. *)
Theorem Next_success b e w1 id tags records w2 :
  latched b = false →
  reader_Next (seriesBlockIter.reader b) (world e) = (true, w1) →
  reader_Current (seriesBlockIter.reader b) w1 = (id, tags, records, w2) →
  ∃ b',
    Next b e =
      (true, b',
       mkEnv (iter_Reset (seriesBlockIter.iter b) (seriesBlockIter.start b)
                (seriesBlockIter.step b) (seriesBlockIter.blockIter b)
                (blockIter_Reset (seriesBlockIter.blockIter b) records w2))
             (calls e ++
                [Call_reader_Next (seriesBlockIter.reader b);
                 Call_reader_Current (seriesBlockIter.reader b);
                 Call_blockIter_Reset (seriesBlockIter.blockIter b) records;
                 Call_iter_Reset (seriesBlockIter.iter b)
                   (seriesBlockIter.start b) (seriesBlockIter.step b)
                   (seriesBlockIter.blockIter b)])) ∧
    seriesBlockIter.blockIter b' = seriesBlockIter.blockIter b ∧
    seriesBlockIter.iter b' = seriesBlockIter.iter b ∧
    seriesBlockIter.recorder b' = seriesBlockIter.recorder b ∧
    seriesBlockIter.start b' = seriesBlockIter.start b ∧
    seriesBlockIter.step b' = seriesBlockIter.step b ∧
    Current b' = (seriesBlockIter.iter b, id, tags).
Proof.
  intros Hl Hn Hc. rewrite Next_unguarded by done. rewrite Hn, Hc. simpl.
  eexists. split; [rewrite <- app_assoc; reflexivity | done].
Qed.

(** C7: the backend of the recorder is chosen by one constructor call in
    [NewSeriesBlockIterator], from the flag [UseArrow]; no later operation
    assigns the recorder field. *)
Theorem recorder_chosen_once reader opts (e : Env W) :
  let '(b, _, e') := NewSeriesBlockIterator reader opts e in
  is_arrow (seriesBlockIter.recorder b) = UseArrow opts ∧
  calls e' =
    calls e ++ [if UseArrow opts then Call_newDatapointRecorder
                else Call_newFlatDatapointRecorder;
                Call_newSeriesFrameIterator (seriesBlockIter.recorder b);
                Call_NewCrossBlockIterator (ReaderIteratorPool opts)] ∧
  ∀ (ops : list (op W)) e1,
    seriesBlockIter.recorder (run ops b e1).1.2 = seriesBlockIter.recorder b.
Proof.
  unfold NewSeriesBlockIterator, mbind, M_bind, fmap, M_fmap, invoke, mret, M_ret.
  destruct (UseArrow opts); simpl.
  - destruct (newDatapointRecorder _) as [p w1]; simpl.
    destruct (newSeriesFrameIterator _ _) as [it w2]; simpl.
    destruct (NewCrossBlockIterator _ _) as [bi w3]; simpl.
    split_and!; [done|by rewrite <- !app_assoc|].
    intros ops e1. by destruct (run_fixed_fields ops (seriesBlockIter.mk reader None false (FrameSize opts) (Start opts) (datapointRecorder p) it bi None None) e1) as (?&?&?&?&?&?).
  - destruct (newFlatDatapointRecorder _) as [p w1]; simpl.
    destruct (newSeriesFrameIterator _ _) as [it w2]; simpl.
    destruct (NewCrossBlockIterator _ _) as [bi w3]; simpl.
    split_and!; [done|by rewrite <- !app_assoc|].
    intros ops e1. by destruct (run_fixed_fields ops (seriesBlockIter.mk reader None false (FrameSize opts) (Start opts) (flatDatapointRecorder p) it bi None None) e1) as (?&?&?&?&?&?).
Qed.

(** C9: [Close()] leaves the exhausted flag, the latched error, the
    current id and the current tags as they were; a [Next()] after it, on
    an iterator that was not latched, still calls the reader's [Next()]
    and returns what the reader returns. *)
Theorem Close_keeps_position b e :
  let '(_, b', e') := Close b e in
  seriesBlockIter.exhausted b' = seriesBlockIter.exhausted b ∧
  seriesBlockIter.err b' = seriesBlockIter.err b ∧
  seriesBlockIter.id b' = seriesBlockIter.id b ∧
  seriesBlockIter.tags b' = seriesBlockIter.tags b ∧
  (latched b = false →
   (Next b' e').1.1 = (reader_Next (seriesBlockIter.reader b) (world e')).1 ∧
   ∃ cs, calls (Next b' e').2 =
           calls e' ++ Call_reader_Next (seriesBlockIter.reader b) :: cs).
Proof.
  pose proof (Close_receiver b e) as Hc.
  destruct (Close b e) as [[r b'] e']. simpl in Hc. subst b'.
  split_and!; try done.
  intros Hl. rewrite Next_unguarded by done.
  destruct (reader_Next _ _) as [[] w1]; simpl.
  - destruct (reader_Current _ _) as [[[id tags] records] w2]. simpl.
    split; [done|]. eexists. rewrite <- app_assoc. reflexivity.
  - destruct (reader_Err _ _) as [err w2]. simpl.
    split; [done|]. eexists. rewrite <- app_assoc. reflexivity.
Qed.

(** C10: [Current()] is a total function of the state.  After
    construction it returns the frame iterator that was constructed, a nil
    id and nil tags, and keeps doing so as long as no [Next()] has
    succeeded; after a [Next()] that returned false it returns what it
    returned before, whatever the caller does next.  And that is the last
    series: in whatever state the iterator has reached, a [Next()] that
    succeeds makes [Current()] the constructed frame iterator with the id
    and the tags that the reader's [Current()] returned, and it stays so
    over every operation until another [Next()] succeeds, in particular
    over every [Next()] that returns false. *)
Theorem Current_total reader opts (e : Env W) :
  let '(b0, _, _) := NewSeriesBlockIterator reader opts e in
  (∃ w w', newSeriesFrameIterator (seriesBlockIter.recorder b0) w
           = (seriesBlockIter.iter b0, w')) ∧
  Current b0 = (seriesBlockIter.iter b0, None, None) ∧
  (∀ (ops : list (op W)) e1,
      Forall (λ more, more = false) (run ops b0 e1).1.1 →
      Current (run ops b0 e1).1.2 = (seriesBlockIter.iter b0, None, None)) ∧
  (∀ b e1 b' e' (ops : list (op W)),
      Next b e1 = (false, b', e') →
      Current (run ops b' e').1.2 = Current b) ∧
  (∀ (ops0 ops : list (op W)) e0 w1 id tags records w2,
      let b := (run ops0 b0 e0).1.2 in
      let e1 := (run ops0 b0 e0).2 in
      latched b = false →
      reader_Next (seriesBlockIter.reader b0) (world e1) = (true, w1) →
      reader_Current (seriesBlockIter.reader b0) w1 = (id, tags, records, w2) →
      let b1 := (Next b e1).1.2 in
      let e2 := (Next b e1).2 in
      (Next b e1).1.1 = true ∧
      Current b1 = (seriesBlockIter.iter b0, id, tags) ∧
      (Forall (λ more, more = false) (run ops b1 e2).1.1 →
       Current (run ops b1 e2).1.2 = (seriesBlockIter.iter b0, id, tags))).
Proof.
  assert (Hfalse : ∀ b e1 b' e' (ops : list (op W)),
             Next b e1 = (false, b', e') →
             Current (run ops b' e').1.2 = Current b).
  { intros b e1 b' e' ops Hn.
    pose proof (Next_false_latches _ _ _ _ Hn) as Hl.
    destruct (run_latched ops b' e' Hl) as [-> _].
    pose proof (exec_Current OpNext b e1) as Hx. simpl in Hx.
    rewrite Hn in Hx. simpl in Hx. by apply Hx. }
  assert (Hlast : ∀ b0 (ops0 ops : list (op W)) e0 w1 id tags records w2,
             let b := (run ops0 b0 e0).1.2 in
             let e1 := (run ops0 b0 e0).2 in
             latched b = false →
             reader_Next (seriesBlockIter.reader b0) (world e1) = (true, w1) →
             reader_Current (seriesBlockIter.reader b0) w1
             = (id, tags, records, w2) →
             let b1 := (Next b e1).1.2 in
             let e2 := (Next b e1).2 in
             (Next b e1).1.1 = true ∧
             Current b1 = (seriesBlockIter.iter b0, id, tags) ∧
             (Forall (λ more, more = false) (run ops b1 e2).1.1 →
              Current (run ops b1 e2).1.2 = (seriesBlockIter.iter b0, id, tags))).
  { intros b0 ops0 ops e0 w1 id tags records w2.
    pose proof (run_fixed_fields ops0 b0 e0) as Hf.
    destruct (run ops0 b0 e0) as [[rs b] e1]. simpl in Hf.
    destruct Hf as (Hreader & _ & _ & _ & Hiter & _).
    cbn [fst snd]. intros Hl Hr Hc. rewrite Next_unguarded by done.
    rewrite Hreader, Hr, Hc. cbn [fst snd].
    split; [done|].
    split; [|intros Hrs; rewrite run_Current by done];
      unfold Current; cbn [seriesBlockIter.iter seriesBlockIter.id
                           seriesBlockIter.tags]; by rewrite Hiter. }
  specialize (Hlast (NewSeriesBlockIterator reader opts e).1.1). revert Hlast.
  unfold NewSeriesBlockIterator, mbind, M_bind, fmap, M_fmap, invoke, mret, M_ret.
  destruct (UseArrow opts); simpl.
  - destruct (newDatapointRecorder _) as [p w1]; simpl.
    destruct (newSeriesFrameIterator _ _) as [it w2] eqn:Hit; simpl.
    destruct (NewCrossBlockIterator _ _) as [bi w3]; simpl.
    intros Hlast. split_and!; [by eauto|done| |done|done].
    intros ops e1 Hrs. by rewrite run_Current.
  - destruct (newFlatDatapointRecorder _) as [p w1]; simpl.
    destruct (newSeriesFrameIterator _ _) as [it w2] eqn:Hit; simpl.
    destruct (NewCrossBlockIterator _ _) as [bi w3]; simpl.
    intros Hlast. split_and!; [by eauto|done| |done|done].
    intros ops e1 Hrs. by rewrite run_Current.
Qed.

End OrchestratorFacts.

(** ** Release, on the collaborators of the spec *)

Section Release.

Implicit Types (w : SpecWorld) (rec : recorder) (p : ptr).

Lemma release_spent_id rec w :
  spent rec w = true → spec.recorder_release rec w = w.
Proof.
  unfold spent, spec.recorder_release. destruct rec as [p|p]; [|done].
  destruct (heap w !! p) as [[]|]; try done. by intros ->.
Qed.

Lemma release_spends rec w : spent rec (spec.recorder_release rec w) = true.
Proof.
  unfold spent, spec.recorder_release. destruct rec as [p|p]; [|done].
  destruct (heap w !! p) as [[| r | |]|] eqn:Hp; rewrite ?Hp; try done.
  destruct (rec_released r) eqn:Hr; simpl.
  - by rewrite Hp.
  - by rewrite lookup_insert_eq.
Qed.

(** What a release does to the heap: nothing, or it marks one recorder. *)
Lemma release_heap rec w q :
  heap (spec.recorder_release rec w) !! q = heap w !! q ∨
  ∃ r, heap w !! q = Some (ObjRecorder r) ∧
       heap (spec.recorder_release rec w) !! q
       = Some (ObjRecorder (mkRecorderState [] true)).
Proof.
  unfold spec.recorder_release. destruct rec as [p|p]; [|by left].
  destruct (heap w !! p) as [[| r | |]|] eqn:Hp; try by left.
  destruct (rec_released r); [by left|]. simpl.
  destruct (decide (p = q)) as [->|Hne].
  - right. exists r. by rewrite lookup_insert_eq.
  - left. by rewrite lookup_insert_ne.
Qed.

Lemma release_keeps_spent rec rec' w :
  spent rec w = true → spent rec (spec.recorder_release rec' w) = true.
Proof.
  unfold spent. destruct rec as [p|p]; [|done].
  destruct (release_heap rec' w p) as [->|(r & _ & ->)]; done.
Qed.

Lemma release_keeps_count rec p w :
  spent (datapointRecorder p) w = true →
  times_returned p (spec.recorder_release rec w) = times_returned p w.
Proof.
  unfold spent, times_returned, spec.recorder_release.
  destruct rec as [q|q]; [|done].
  destruct (heap w !! q) as [[| r | |]|] eqn:Hq; try done.
  destruct (rec_released r) eqn:Hr; [done|]. simpl.
  destruct (Nat.eq_dec q p) as [->|Hne]; [|done].
  rewrite Hq, Hr. done.
Qed.

(** A store of something that is not a recorder, over something that is
    not a recorder. *)
Lemma store_keeps_spent rec q o w :
  (∀ r, o ≠ ObjRecorder r) → (∀ r, heap w !! q ≠ Some (ObjRecorder r)) →
  spent rec (store q o w) = spent rec w.
Proof.
  intros Ho Hq. unfold spent, store. destruct rec as [p|p]; [|done]. simpl.
  destruct (decide (q = p)) as [->|Hne].
  - rewrite lookup_insert_eq.
    destruct o; try (by exfalso; eapply Ho).
    all: destruct (heap w !! p) as [[]|]; try done; by exfalso; eapply Hq.
  - by rewrite lookup_insert_ne.
Qed.

Lemma blockIter_Close_keeps_spent rec q w :
  spent rec (spec.blockIter_Close q w) = spent rec w.
Proof.
  unfold spec.blockIter_Close.
  destruct (heap w !! q) as [[]|] eqn:Hq; try done.
  apply store_keeps_spent; [done|]. intros r. by rewrite Hq.
Qed.

Lemma blockIter_Close_arena q w :
  arena_returns (spec.blockIter_Close q w) = arena_returns w.
Proof.
  unfold spec.blockIter_Close. by destruct (heap w !! q) as [[]|].
Qed.

(** Closing the cross-block iterator leaves every frame iterator alone. *)
Lemma blockIter_Close_frame q w it :
  match heap w !! it with
  | Some (ObjFrameIter f) =>
      heap (spec.blockIter_Close q w) !! it = Some (ObjFrameIter f)
  | _ => ∀ f, heap (spec.blockIter_Close q w) !! it ≠ Some (ObjFrameIter f)
  end.
Proof.
  unfold spec.blockIter_Close.
  destruct (heap w !! q) as [[]|] eqn:Hq; simpl;
    try (destruct (heap w !! it) as [[]|] eqn:Hit; by rewrite ?Hit).
  destruct (decide (q = it)) as [->|Hne].
  - rewrite Hq, lookup_insert_eq. done.
  - rewrite lookup_insert_ne by done. destruct (heap w !! it) as [[]|]; done.
Qed.

Lemma release_frame rec w it :
  match heap w !! it with
  | Some (ObjFrameIter f) =>
      heap (spec.recorder_release rec w) !! it = Some (ObjFrameIter f)
  | _ => ∀ f, heap (spec.recorder_release rec w) !! it ≠ Some (ObjFrameIter f)
  end.
Proof.
  destruct (release_heap rec w it) as [->|(r & -> & ->)].
  - destruct (heap w !! it) as [[]|]; done.
  - done.
Qed.

(** Closing a frame iterator: its recorder is spent afterwards, and the
    iterator keeps its recorder. *)
Lemma iter_Close_cases it w :
  match heap w !! it with
  | Some (ObjFrameIter f) =>
      (∃ f', heap (spec.iter_Close it w).2 !! it = Some (ObjFrameIter f') ∧
             fi_recorder f' = fi_recorder f) ∧
      spent (fi_recorder f) (spec.iter_Close it w).2 = true ∧
      (spent (fi_recorder f) w = true →
       arena_returns (spec.iter_Close it w).2 = arena_returns w)
  | _ => (spec.iter_Close it w).2 = w
  end.
Proof.
  unfold spec.iter_Close.
  destruct (heap w !! it) as [[| | | f]|] eqn:Hit; try done. simpl.
  set (w1 := store it _ w).
  assert (Hw1 : heap w1 !! it = Some (ObjFrameIter
            (mkSeriesFrameIter (fi_recorder f) (fi_start f) (fi_step f)
               (fi_source f) None (fi_current f) (fi_err f)))).
  { unfold w1, store. simpl. by rewrite lookup_insert_eq. }
  split_and!.
  - pose proof (release_frame (fi_recorder f) w1 it) as Hr.
    rewrite Hw1 in Hr. eexists. split; [exact Hr|done].
  - apply release_spends.
  - intros Hs. rewrite release_spent_id; [done|].
    unfold w1. rewrite store_keeps_spent; [done|done|].
    intros r. by rewrite Hit.
Qed.

Lemma iter_Close_keeps_spent rec it w :
  spent rec w = true → spent rec (spec.iter_Close it w).2 = true.
Proof.
  intros Hs. unfold spec.iter_Close.
  destruct (heap w !! it) as [[| | | f]|] eqn:Hit; try done. simpl.
  apply release_keeps_spent.
  rewrite store_keeps_spent; [done|done|]. intros r. by rewrite Hit.
Qed.

Lemma iter_Close_keeps_count it p w :
  spent (datapointRecorder p) w = true →
  times_returned p (spec.iter_Close it w).2 = times_returned p w.
Proof.
  intros Hs. unfold spec.iter_Close.
  destruct (heap w !! it) as [[| | | f]|] eqn:Hit; try done. simpl.
  rewrite release_keeps_count; [done|].
  rewrite store_keeps_spent; [done|done|]. intros r. by rewrite Hit.
Qed.

Lemma iter_Close_no_error it w : (spec.iter_Close it w).1 = None.
Proof. unfold spec.iter_Close. by destruct (heap w !! it) as [[]|]. Qed.

(** The world after [Close()]. *)
Lemma Close_world (b : seriesBlockIter) (e : Env SpecWorld) :
  Close b e =
  ((spec.iter_Close (seriesBlockIter.iter b)
      (spec.blockIter_Close (seriesBlockIter.blockIter b)
         (spec.recorder_release (seriesBlockIter.recorder b) (world e)))).1,
   b,
   mkEnv (spec.iter_Close (seriesBlockIter.iter b)
            (spec.blockIter_Close (seriesBlockIter.blockIter b)
               (spec.recorder_release (seriesBlockIter.recorder b) (world e)))).2
         (calls e ++ [Call_recorder_release (seriesBlockIter.recorder b);
                      Call_blockIter_Close (seriesBlockIter.blockIter b);
                      Call_iter_Close (seriesBlockIter.iter b)])).
Proof.
  unfold Close, mbind, M_bind, invoke, invoke_, mret, M_ret. simpl.
  destruct (spec.iter_Close _ _) as [r w3]; simpl.
  by rewrite <- !app_assoc.
Qed.

(** C6: with the recorder and the frame iterator of the spec, the second of
    two [Close()] calls hands nothing back to the allocator and returns no
    error; the columns of a recorder that still held them went back exactly
    once. *)
Theorem Close_twice_releases_once (b : seriesBlockIter) (e : Env SpecWorld) :
  let '(_, b1, e1) := Close b e in
  let '(r2, _, e2) := Close b1 e1 in
  r2 = None ∧
  arena_returns (world e2) = arena_returns (world e1) ∧
  ∀ p, seriesBlockIter.recorder b = datapointRecorder p →
       spent (datapointRecorder p) (world e) = false →
       times_returned p (world e2) = S (times_returned p (world e)).
Proof.
  rewrite (Close_world b e). rewrite Close_world. simpl.
  set (rec := seriesBlockIter.recorder b).
  set (bi := seriesBlockIter.blockIter b).
  set (it := seriesBlockIter.iter b).
  set (w1 := spec.recorder_release rec (world e)).
  set (w2 := spec.blockIter_Close bi w1).
  set (w3 := (spec.iter_Close it w2).2).
  assert (Hrec3 : spent rec w3 = true).
  { apply iter_Close_keeps_spent. unfold w2.
    rewrite blockIter_Close_keeps_spent. apply release_spends. }
  rewrite (release_spent_id rec w3 Hrec3).
  set (w5 := spec.blockIter_Close bi w3).
  assert (Harena : arena_returns (spec.iter_Close it w5).2 = arena_returns w3).
  { pose proof (iter_Close_cases it w2) as H2. fold w3 in H2.
    pose proof (iter_Close_cases it w5) as H5.
    pose proof (blockIter_Close_frame bi w3 it) as H35. fold w5 in H35.
    destruct (heap w2 !! it) as [[| | | f]|] eqn:Hit2.
    1-3,5: rewrite H2 in H35; rewrite Hit2 in H35;
      (destruct (heap w5 !! it) as [[| | | f5]|] eqn:Hit5;
       [..|by exfalso; eapply H35|]); rewrite H5;
      unfold w5; rewrite blockIter_Close_arena; done.
    destruct H2 as ((f' & Hf' & Hrecf) & Hs3 & _).
    rewrite Hf' in H35. rewrite H35 in H5.
    destruct H5 as (_ & _ & H5). rewrite H5.
    - unfold w5. by rewrite blockIter_Close_arena.
    - unfold w5. rewrite blockIter_Close_keeps_spent. by rewrite Hrecf. }
  split_and!.
  - apply iter_Close_no_error.
  - done.
  - intros p Hp Hs. unfold times_returned at 1. rewrite Harena.
    fold (times_returned p w3). unfold w3.
    assert (Hs1 : spent (datapointRecorder p) w1 = true).
    { unfold w1. rewrite <- Hp. apply release_spends. }
    rewrite iter_Close_keeps_count
      by (unfold w2; by rewrite blockIter_Close_keeps_spent).
    unfold times_returned, w2. rewrite blockIter_Close_arena.
    unfold w1. rewrite Hp.
    unfold spent in Hs. unfold spec.recorder_release.
    destruct (heap (world e) !! p) as [[| r | |]|]; try done.
    rewrite Hs. simpl. destruct (Nat.eq_dec p p); done.
Qed.

End Release.

(** ** Frames, on the frame iterator of the spec *)

Section Frames.

Variables (start step : Z).
Hypothesis step_pos : 0 < step.

Implicit Types (k lo : Z) (dp : Datapoint) (dps acc : list Datapoint).



(** [frames_from] is [fill] repeated: one [Next()] of the frame iterator
    after the other. *)
Lemma frames_from_fill k acc cur stream :
  frames_from start step k acc stream =
  match fill start step k acc cur stream with
  | (FrameFailed msg, _) => ([], Some msg)
  | (FrameDone points None, _) => ([mkFrame k points], None)
  | (FrameDone points (Some dp), c) =>
      let '(fs, e) :=
        frames_from start step (frameIndex start step (Timestamp dp)) [dp]
                    (cb_stream c) in
      (mkFrame k points :: fs, e)
  end.
Proof.
  revert acc cur. induction stream as [|[dp|msg] rest IH]; intros acc cur; simpl.
  - done.
  - destruct (Timestamp dp <? start); [done|].
    destruct (k <? frameIndex start step (Timestamp dp)); [done|].
    apply IH.
  - done.
Qed.



End Frames.

(** The first [Next()] of a frame iterator after a [Reset], on a source that
    has just been reset, produces the first frame of [frames], and leaves
    the iterator where the remaining frames start. *)
Lemma seriesFrameIter_Next_first_frame f held c :
  fi_err f = None → fi_buffered f = None →
  cb_exhausted c = false → cb_err c = None →
  match seriesFrameIter_Next f held c with
  | (true, f', points, c') =>
      ∃ k, fi_current f' = Some (mkFrame k points) ∧
           frames (fi_start f) (fi_step f) (cb_stream c) =
           match fi_buffered f' with
           | Some dp =>
               let '(fs, e) :=
                 frames_from (fi_start f) (fi_step f)
                   (frameIndex (fi_start f) (fi_step f) (Timestamp dp)) [dp]
                   (cb_stream c') in
               (mkFrame k points :: fs, e)
           | None => ([mkFrame k points], None)
           end
  | (false, f', _, _) =>
      frames (fi_start f) (fi_step f) (cb_stream c) = ([], fi_err f')
  end.
Proof.
  intros Hf Hb Hx He.
  unfold seriesFrameIter_Next, first_point, crossBlockIter_Next.
  rewrite Hf, Hb, Hx, He. simpl.
  destruct (cb_stream c) as [|[dp|msg] rest]; simpl; [done| |done].
  destruct (Timestamp dp <? fi_start f) eqn:Hlt; simpl; [done|].
  unfold pull_frame. simpl.
  rewrite (frames_from_fill _ _ _ _ (Some dp)).
  destruct (fill _ _ _ _ _ _) as [[points [dp'|]|msg] c']; simpl; eauto.
Qed.

(** ** The orchestrator on the collaborators of the spec *)

(** Driving the frame iterator that [Current()] hands out gives the frames
    of [frames]. *)
Example drain_end_to_end :
  let '(b0, _, e0) :=
    NewSeriesBlockIterator 0%nat (mkOptions false 0 10 None) (world_with one_series) in
  let '(more, b1, e1) := Next b0 e0 in
  more = true ∧
  (drain 5 (Current b1).1.1 (world e1)).1
  = [mkFrame 0 [point 1; point 9]; mkFrame 1 [point 10; point 19]; mkFrame 2 [point 25]] ∧
  (frames 0 10 (EncDatapoint <$> [point 1; point 9; point 10; point 19; point 25])).1
  = (drain 5 (Current b1).1.1 (world e1)).1.
Proof. vm_compute. done. Qed.

(** C1, on a reader that fails at once. *)
Lemma Next_false_is_final_witness :
  Next fresh_failing.1 fresh_failing.2 = (false, failed.1, failed.2) ∧
  let '(rs, b'', e'') := run (busy failed.1) failed.1 failed.2 in
  Forall (λ more, more = false) rs ∧
  (Next b'' e'').1.1 = false ∧
  Err b'' = Err failed.1.
Proof.
  split; [vm_compute; reflexivity|].
  apply (Next_false_is_final fresh_failing.1 fresh_failing.2).
  vm_compute; reflexivity.
Defined.

(** C2 fails on the code: the only block of the first series is corrupt; the
    frame iterator of [Current()] stops on the decode error, the cross-block
    iterator and the frame iterator both report it, and [Err()] of the
    orchestrator is nil. *)
Lemma Err_misses_decode_error :
  let '(b0, _, e0) :=
    NewSeriesBlockIterator 0%nat arrow_opts (world_with two_series) in
  let '(more, b1, e1) := Next b0 e0 in
  let '(frame, w2) := spec.iter_Next (Current b1).1.1 (world e1) in
  more = true ∧ frame = false ∧
  spec.blockIter_Err (seriesBlockIter.blockIter b1) w2 = Some "bad checksum"%string ∧
  spec.iter_Err (seriesBlockIter.iter b1) w2 = Some "bad checksum"%string ∧
  Err b1 = None.
Proof. vm_compute. done. Qed.

(** C2 as amended, on the two readers: the [Next()] that finds
    [failing_reader] failed latches the reader's error, and over
    [two_series], with the corrupt block of its first series driven into the
    decode error between two [Next()] calls that succeed, [Err()] stays
    nil. *)
Lemma Err_only_from_reader_witness :
  (Next fresh_failing.1 fresh_failing.2).1.1 = false ∧
  latched (Next fresh_failing.1 fresh_failing.2).1.2 = true ∧
  Err (Next fresh_failing.1 fresh_failing.2).1.2 = Some "read failure"%string ∧
  Err (run [OpNext; OpCaller (drive_frames positioned.1); OpCurrent; OpNext; OpClose]
           fresh.1 fresh.2).1.2 = None.
Proof.
  destruct (@Err_only_from_reader SpecWorld _) as (_ & Hlatch & _ & Hkeep).
  pose (w1 := (reader_Next (seriesBlockIter.reader fresh_failing.1)
                           (world fresh_failing.2)).2).
  destruct (Hlatch fresh_failing.1 fresh_failing.2 w1) as (Hf & Hl & He);
    [reflexivity|vm_compute; reflexivity|].
  split_and!; [exact Hf|exact Hl| |].
  - rewrite He. vm_compute; reflexivity.
  - apply (Hkeep [OpNext; OpCaller (drive_frames positioned.1); OpCurrent;
                  OpNext; OpClose] fresh.1 fresh.2).
    vm_compute. repeat constructor.
Defined.

(** C4 fails on the code: a frame size of zero, or a negative one, is
    accepted. *)
Lemma NewSeriesBlockIterator_accepts_bad_frameSize :
  (FrameSize (mkOptions true 0 0 None) ≤ 0 ∧
   (NewSeriesBlockIterator 0%nat (mkOptions true 0 0 None) (world_with two_series)).1.2
   = None) ∧
  (FrameSize (mkOptions false 0 (-5) None) ≤ 0 ∧
   (NewSeriesBlockIterator 0%nat (mkOptions false 0 (-5) None) (world_with two_series)).1.2
   = None).
Proof. vm_compute. split; (split; [discriminate | reflexivity]). Qed.

(** C5, on the first series of [two_series]. *)
Lemma Next_success_witness :
  latched fresh.1 = false ∧
  (reader_Next (seriesBlockIter.reader fresh.1) (world fresh.2)).1 = true ∧
  ∃ b', (Next fresh.1 fresh.2).1 = (true, b') ∧
        seriesBlockIter.blockIter b' = seriesBlockIter.blockIter fresh.1 ∧
        seriesBlockIter.iter b' = seriesBlockIter.iter fresh.1 ∧
        Current b' = (2%nat, Some "a"%string, Some [("k"%string, "v"%string)]).
Proof.
  split; [reflexivity|]. split; [vm_compute; reflexivity|].
  destruct (Next_success fresh.1 fresh.2
              (reader_Next 0%nat (world fresh.2)).2
              (Some "a"%string) (Some [("k"%string, "v"%string)])
              [mkBlockRecord 0 10
                 [EncDatapoint (point 1); EncDatapoint (point 9);
                  EncCorrupt "bad checksum"]]
              (reader_Next 0%nat (world fresh.2)).2)
    as (b' & Hn & Hbi & Hit & _ & _ & _ & Hc);
    [vm_compute; reflexivity ..|].
  exists b'. rewrite Hn. split_and!; [reflexivity|exact Hbi|exact Hit|exact Hc].
Defined.

(** C6, on an arrow-backed iterator positioned on a series. *)
Lemma Close_twice_releases_once_witness :
  seriesBlockIter.recorder positioned.1 = datapointRecorder 1%nat ∧
  spent (datapointRecorder 1%nat) (world positioned.2) = false ∧
  let '(_, b1, e1) := Close positioned.1 positioned.2 in
  let '(r2, _, e2) := Close b1 e1 in
  r2 = None ∧ times_returned 1%nat (world e2) = 1%nat.
Proof.
  split; [reflexivity|]. split; [vm_compute; reflexivity|].
  generalize (Close_twice_releases_once positioned.1 positioned.2).
  destruct (Close positioned.1 positioned.2) as [[r1 b1] e1].
  destruct (Close b1 e1) as [[r2 b2] e2].
  intros (Hr & _ & Hp). split; [exact Hr|].
  rewrite (Hp 1%nat); [reflexivity|reflexivity|vm_compute; reflexivity].
Defined.


(** C9, on a fresh iterator: [Next()] after [Close()] returns true. *)
Lemma Close_keeps_position_witness :
  latched fresh.1 = false ∧
  let '(_, b', e') := Close fresh.1 fresh.2 in
  (Next b' e').1.1 = true.
Proof.
  split; [reflexivity|].
  generalize (Close_keeps_position fresh.1 fresh.2).
  destruct (Close fresh.1 fresh.2) as [[r b'] e'] eqn:Hc.
  intros (_ & _ & _ & _ & Hn). destruct (Hn eq_refl) as [-> _].
  apply (f_equal snd) in Hc. simpl in Hc. subst e'.
  vm_compute; reflexivity.
Defined.

(** C10, before any successful [Next()], after a failed one, and on the
    one series of [one_series] after the two [Next()] calls that follow it
    have returned false. *)
Lemma Current_total_witness :
  Current (run [OpErr; OpClose; OpCurrent] fresh_one.1 fresh_one.2).1.2
  = (2%nat, None, None) ∧
  Next fresh_failing.1 fresh_failing.2 = (false, failed.1, failed.2) ∧
  Current (run (busy failed.1) failed.1 failed.2).1.2 = Current fresh_failing.1 ∧
  (run [OpErr; OpNext; OpErr; OpNext; OpNext; OpClose] fresh_one.1 fresh_one.2).1.1
  = [true; false; false] ∧
  Current (run [OpErr; OpNext; OpNext; OpClose]
               positioned_one.1 positioned_one.2).1.2
  = (2%nat, Some "cpu"%string, Some []).
Proof.
  generalize (Current_total 0%nat arrow_opts (world_with one_series)).
  change (NewSeriesBlockIterator 0%nat arrow_opts (world_with one_series))
    with (fresh_one.1, @None string, fresh_one.2).
  intros (_ & _ & Hfresh & Hfailed & Hlast).
  split_and!.
  - apply (Hfresh [OpErr; OpClose; OpCurrent] fresh_one.2). vm_compute. constructor.
  - vm_compute; reflexivity.
  - apply (Hfailed fresh_failing.1 fresh_failing.2 failed.1 failed.2).
    vm_compute; reflexivity.
  - vm_compute; reflexivity.
  - pose (w1 := (reader_Next (seriesBlockIter.reader fresh_one.1)
                             (world fresh_one.2)).2).
    pose (cur := reader_Current (seriesBlockIter.reader fresh_one.1) w1).
    apply (Hlast [OpErr] [OpErr; OpNext; OpNext; OpClose] fresh_one.2
                 w1 (Some "cpu"%string) (Some []) cur.1.2 cur.2).
    + vm_compute; reflexivity.
    + vm_compute; reflexivity.
    + vm_compute; reflexivity.
    + vm_compute. repeat constructor.
Defined.

(** ** More on the orchestrator: what its call log shows *)

Section OrchestratorLog.

Context {W : Type} `{!Collaborators W}.

Implicit Types (b : seriesBlockIter) (e : Env W) (o : op W).

Lemma count_calls_app p cs cs' :
  count_calls p (cs ++ cs') = (count_calls p cs + count_calls p cs')%nat.
Proof. induction cs as [|c cs IH]; simpl; [done|]. rewrite IH. lia. Qed.

(** What one operation adds to the log, by what the iterator was and what
    [Next] returned. *)
Lemma exec_calls o b e r b' e' :
  exec o b e = (r, b', e') →
  ∃ cs, calls e' = calls e ++ cs ∧
        Forall (own_call b) cs ∧
        match o, r with
        | OpNext, Some true =>
            latched b = false ∧
            cs = [Call_reader_Next (seriesBlockIter.reader b);
                  Call_reader_Current (seriesBlockIter.reader b);
                  Call_blockIter_Reset (seriesBlockIter.blockIter b)
                    (reader_Current (seriesBlockIter.reader b)
                       (reader_Next (seriesBlockIter.reader b) (world e)).2).1.2;
                  Call_iter_Reset (seriesBlockIter.iter b)
                    (seriesBlockIter.start b) (seriesBlockIter.step b)
                    (seriesBlockIter.blockIter b)]
        | OpNext, _ =>
            (latched b = true ∧ cs = []) ∨
            (latched b = false ∧ latched b' = true ∧
             cs = [Call_reader_Next (seriesBlockIter.reader b);
                   Call_reader_Err (seriesBlockIter.reader b)])
        | OpClose, _ => cs = close_calls b
        | _, _ => cs = []
        end.
Proof.
  destruct o; simpl.
  - destruct (latched b) eqn:Hl.
    + rewrite Next_guard by done. intros [= <- <- <-]. exists [].
      rewrite app_nil_r. split_and!; [done|done|by left].
    + rewrite Next_unguarded by done.
      destruct (reader_Next _ _) as [[] w1]; simpl.
      * destruct (reader_Current _ _) as [[[id tags] records] w2]; simpl.
        intros [= <- <- <-]. simpl.
        eexists. split; [by rewrite <- app_assoc|]. split; [|done].
        repeat constructor; done.
      * destruct (reader_Err _ _) as [err w2]; simpl.
        intros [= <- <- <-]. simpl.
        eexists. split; [by rewrite <- app_assoc|]. split.
        -- repeat constructor; done.
        -- right. done.
  - intros [= <- <- <-]. exists []. by rewrite app_nil_r.
  - intros [= <- <- <-]. exists []. by rewrite app_nil_r.
  - unfold Close, mbind, M_bind, invoke, invoke_, mret, M_ret. simpl.
    destruct (iter_Close _ _) as [r' w3]; simpl.
    intros [= <- <- <-]. simpl.
    exists (close_calls b). split; [by rewrite <- !app_assoc|].
    split; [|done]. repeat constructor; done.
  - intros [= <- <- <-]. exists []. by rewrite app_nil_r.
Qed.

Lemma own_call_fixed b b' c :
  seriesBlockIter.reader b' = seriesBlockIter.reader b →
  seriesBlockIter.start b' = seriesBlockIter.start b →
  seriesBlockIter.step b' = seriesBlockIter.step b →
  seriesBlockIter.recorder b' = seriesBlockIter.recorder b →
  seriesBlockIter.iter b' = seriesBlockIter.iter b →
  seriesBlockIter.blockIter b' = seriesBlockIter.blockIter b →
  own_call b' c → own_call b c.
Proof. intros ? ? ? ? ? ?. destruct c; simpl; intuition congruence. Qed.

(** X1: a latched iterator leaves the reader alone and resets nothing: over
    any sequence of operations the only calls it makes are the three of each
    [Close()]. *)
Theorem latched_calls_only_close b e (ops : list (op W)) :
  latched b = true →
  calls (run ops b e).2 = calls e ++ calls_when_latched b ops.
Proof.
  intros Hl. revert e. induction ops as [|o ops IH]; intros e; simpl.
  - unfold calls_when_latched. simpl. by rewrite app_nil_r.
  - pose proof (exec_latched o b e Hl) as [Hb Hr].
    destruct (exec o b e) as [[r b'] e'] eqn:Hx.
    destruct (exec_calls o b e r b' e' Hx) as (cs & Hcs & _ & Hshape).
    simpl in Hb, Hr. subst b'.
    specialize (IH e').
    destruct (run ops b e') as [[rs b''] e'']. simpl in *.
    rewrite IH, Hcs, <- app_assoc. f_equal.
    unfold calls_when_latched. simpl. f_equal.
    destruct o; try done.
    destruct r as [[]|]; simpl in Hshape.
    + destruct Hshape; congruence.
    + destruct Hshape as [[_ ->]|[Hl' _]]; [done|congruence].
    + destruct Hshape as [[_ ->]|[Hl' _]]; [done|congruence].
Qed.

(** X2: over any sequence of operations, from any state, the iterator reads
    [Current()] of the reader and resets each of its two iterators once for
    every [Next()] that returned true, and never otherwise; every call of
    the reader's [Next()] is followed by one of its [Current()] or its
    [Err()]; and [Err()] of the reader is read at most once. *)
Theorem calls_match_successes (ops : list (op W)) b e :
  ∃ cs,
    calls (run ops b e).2 = calls e ++ cs ∧
    count_calls is_reader_Current cs = successes (run ops b e).1.1 ∧
    count_calls is_blockIter_Reset cs = successes (run ops b e).1.1 ∧
    count_calls is_iter_Reset cs = successes (run ops b e).1.1 ∧
    count_calls is_reader_Next cs
    = (successes (run ops b e).1.1 + count_calls is_reader_Err cs)%nat ∧
    (count_calls is_reader_Err cs ≤ 1)%nat ∧
    (latched b = true → count_calls is_reader_Next cs = O).
Proof.
  revert b e. induction ops as [|o ops IH]; intros b e; simpl.
  - exists []. rewrite app_nil_r. simpl. split_and!; done || lia.
  - pose proof (exec_latched o b e) as Hlatched.
    destruct (exec o b e) as [[r b1] e1] eqn:Hx.
    destruct (exec_calls o b e r b1 e1 Hx) as (cs1 & Hcs1 & _ & Hshape).
    simpl in Hlatched.
    destruct (IH b1 e1) as (cs2 & Hcs2 & Hcur & Hbr & Hir & Hnext & Herr & Hl2).
    destruct (run ops b1 e1) as [[rs b2] e2]. simpl in *.
    exists (cs1 ++ cs2). rewrite Hcs2, Hcs1, <- app_assoc.
    split; [done|]. rewrite !count_calls_app.
    assert (Hcases :
      (r = Some true ∧ latched b = false ∧
       cs1 = [Call_reader_Next (seriesBlockIter.reader b);
              Call_reader_Current (seriesBlockIter.reader b);
              Call_blockIter_Reset (seriesBlockIter.blockIter b)
                (reader_Current (seriesBlockIter.reader b)
                   (reader_Next (seriesBlockIter.reader b) (world e)).2).1.2;
              Call_iter_Reset (seriesBlockIter.iter b)
                (seriesBlockIter.start b) (seriesBlockIter.step b)
                (seriesBlockIter.blockIter b)]) ∨
      (r ≠ Some true ∧ latched b = false ∧ latched b1 = true ∧
       cs1 = [Call_reader_Next (seriesBlockIter.reader b);
              Call_reader_Err (seriesBlockIter.reader b)]) ∨
      (r ≠ Some true ∧ (latched b = true → b1 = b) ∧
       (cs1 = [] ∨ cs1 = close_calls b))).
    { destruct o; simpl in Hshape.
      - destruct r as [[]|].
        + left. by destruct Hshape.
        + destruct Hshape as [[Hl ->]|(Hl & Hl1 & ->)].
          * right. right. split_and!; [done| |by left]. intros _. by apply Hlatched.
          * right. left. done.
        + destruct Hshape as [[Hl ->]|(Hl & Hl1 & ->)].
          * right. right. split_and!; [done| |by left]. intros _. by apply Hlatched.
          * right. left. done.
      - right. right. simpl in Hx. inversion Hx; subst. split_and!; [done|done|by left].
      - right. right. simpl in Hx. inversion Hx; subst. split_and!; [done|done|by left].
      - right. right. pose proof (Close_receiver b e) as Hc. simpl in Hx.
        destruct (Close b e) as [[r' b'] e']. simpl in Hc.
        inversion Hx; subst. split_and!; [done|done|by right].
      - right. right. simpl in Hx. inversion Hx; subst. split_and!; [done|done|by left]. }
    assert (Hsucc : successes (match r with Some more => more :: rs | None => rs end)
                    = ((if bool_decide (r = Some true) then 1 else 0) + successes rs)%nat).
    { unfold successes. by destruct r as [[]|]. }
    rewrite Hsucc.
    destruct Hcases as [(-> & Hl & ->)|[(Hr & Hl & Hl1 & ->)|(Hr & Hb1 & Hcs)]].
    + simpl. split_and!; try lia. congruence.
    + rewrite bool_decide_eq_false_2 by done. specialize (Hl2 Hl1).
      simpl. split_and!; try lia. congruence.
    + rewrite bool_decide_eq_false_2 by done.
      assert (Hzero : ∀ p, p = is_reader_Current ∨ p = is_blockIter_Reset ∨
                           p = is_iter_Reset ∨ p = is_reader_Next ∨
                           p = is_reader_Err → count_calls p cs1 = O).
      { intros p Hp. destruct Hcs as [->| ->]; [done|].
        destruct Hp as [->|[->|[->|[->| ->]]]]; done. }
      rewrite !Hzero by tauto.
      split_and!; try lia.
      intros Hl. rewrite (Hb1 Hl) in Hl2. by apply Hl2.
Qed.

(** X3: every call the iterator makes, over any sequence of operations, goes
    to the reader, recorder, cross-block iterator and frame iterator it holds
    since construction; every [Reset] of the frame iterator passes the start
    and step it holds since construction and its own cross-block iterator;
    and it constructs no further collaborator. *)
Theorem calls_stay_with_own_collaborators (ops : list (op W)) b e :
  ∃ cs, calls (run ops b e).2 = calls e ++ cs ∧ Forall (own_call b) cs.
Proof.
  revert b e. induction ops as [|o ops IH]; intros b e; simpl.
  - exists []. by rewrite app_nil_r.
  - pose proof (exec_fixed_fields o b e) as Hfix.
    destruct (exec o b e) as [[r b1] e1] eqn:Hx.
    destruct (exec_calls o b e r b1 e1 Hx) as (cs1 & Hcs1 & Hown1 & _).
    simpl in Hfix.
    destruct (IH b1 e1) as (cs2 & Hcs2 & Hown2).
    destruct (run ops b1 e1) as [[rs b2] e2]. simpl in *.
    exists (cs1 ++ cs2). rewrite Hcs2, Hcs1, <- app_assoc. split; [done|].
    apply Forall_app. split; [done|].
    destruct Hfix as (?&?&?&?&?&?).
    eapply Forall_impl; [exact Hown2|]. intros c. by apply own_call_fixed.
Qed.

End OrchestratorLog.

(** X1, on the iterator over [failing_reader] after its failed [Next()]. *)
Lemma latched_calls_only_close_witness :
  latched failed.1 = true ∧
  calls (run (busy failed.1) failed.1 failed.2).2
  = calls failed.2 ++ close_calls failed.1 ++ close_calls failed.1.
Proof.
  split; [reflexivity|].
  rewrite (latched_calls_only_close failed.1 failed.2 (busy failed.1));
    reflexivity.
Defined.

(** * The iterators of the remote write handler *)

(** ** Arithmetic on [int] *)

Lemma wrap_int_small z : - 2 ^ 63 ≤ z < 2 ^ 63 → wrap_int z = z.
Proof. intros Hz. unfold wrap_int. rewrite Z.mod_small; lia. Qed.

Lemma index_Some {A} (s : list A) (i : Z) :
  0 ≤ i < Z.of_nat (length s) → ∃ x, index s i = Some x ∧ s !! Z.to_nat i = Some x.
Proof.
  intros Hi. unfold index. destruct (Z.ltb_spec i 0); [lia|].
  destruct (lookup_lt_is_Some_2 s (Z.to_nat i)) as [x Hx]; [lia|]. eauto.
Qed.

Lemma index_nat {A} (s : list A) (k : nat) : index s (Z.of_nat k) = s !! k.
Proof.
  unfold index. destruct (Z.ltb_spec (Z.of_nat k) 0); [lia|]. by rewrite Nat2Z.id.
Qed.

(** ** [tagIterator] *)

Section TagIterator.

Import tagIterator.

Implicit Types (i : tagIterator.t) (ls : list Label.t).

Lemma Next_keeps i r i' :
  Next i = Some (r, i') →
  labels i' = labels i ∧ numTags i' = numTags i ∧ tag i' = tag i ∧
  idx i' = wrap_int (idx i + 1).
Proof.
  unfold Next. destruct (wrap_int (idx i + 1) <? numTags i); simpl.
  - destruct (index _ _); simpl; [|done]. by intros [= <- <-].
  - by intros [= <- <-].
Qed.

Lemma Nexts_keeps n : ∀ i rs i',
  Nexts n i = Some (rs, i') →
  labels i' = labels i ∧ numTags i' = numTags i ∧ tag i' = tag i ∧
  length rs = n.
Proof.
  induction n as [|n IH]; intros i rs i'; simpl.
  - by intros [= <- <-].
  - destruct (Next i) as [[r i1]|] eqn:Hn; simpl; [|done].
    destruct (Nexts n i1) as [[rs1 i2]|] eqn:Hns; simpl; [|done].
    intros [= <- <-]. apply Next_keeps in Hn as (?&?&?&_).
    apply IH in Hns as (?&?&?&?). simpl. split_and!; congruence.
Qed.

Lemma Next_safe i :
  wf i → idx i < 2 ^ 63 - 1 →
  ∃ r i', Next i = Some (r, i') ∧ wf i' ∧
          idx i' = idx i + 1 ∧
          (r = true ↔ idx i + 1 < Z.of_nat (length (labels i))).
Proof.
  intros [Hn Hi] Hmax. unfold Next.
  rewrite wrap_int_small by lia. rewrite Hn.
  destruct (Z.ltb_spec (idx i + 1) (Z.of_nat (length (labels i)))) as [Hlt|Hge]; simpl.
  - destruct (index_Some (labels i) (idx i + 1)) as (l & -> & _); [lia|]. simpl.
    eexists _, _. split; [done|]. unfold wf. simpl. split_and!; try done; lia.
  - eexists _, _. split; [done|]. unfold wf. simpl.
    split_and!; try done; try lia. all: split; [done|lia].
Qed.

Lemma Reset_wf ls i : wf (Reset ls i).
Proof. unfold wf, Reset. simpl. split; [done|lia]. Qed.

(** X4: the iterator never indexes its labels out of range.  A new iterator
    is in a state where [numTags] is the number of labels, and every method
    that writes to the iterator leaves it in such a state; from such a state
    [Next()] does not panic (short of [idx] reaching the largest [int]) and
    returns true exactly when the next index is within the labels. *)
Theorem tagIterator_Next_safe :
  wf newTagIterator ∧
  (∀ ls i, wf (Reset ls i)) ∧
  (∀ i, wf (Close i) ∧ wf (Restart i) ∧ wf (Duplicate i)) ∧
  ∀ i, wf i → idx i < 2 ^ 63 - 1 →
       ∃ r i', Next i = Some (r, i') ∧ wf i' ∧
               (r = true ↔ idx i + 1 < Z.of_nat (length (labels i))).
Proof.
  split_and!.
  - apply Reset_wf.
  - apply Reset_wf.
  - intros i. split_and!; apply Reset_wf.
  - intros i Hwf Hmax. destruct (Next_safe i Hwf Hmax) as (r & i' & ? & ? & _ & ?).
    eauto.
Qed.

(** The closed form of [n] calls of [Next()] after a [Reset]: the calls
    succeed as long as there are labels, and the two identifiers hold the
    last label that was reached. *)
Lemma Nexts_after_Reset n : ∀ ls i,
  Z.of_nat n < 2 ^ 63 →
  Nexts n (Reset ls i) =
  Some ((λ k, bool_decide (k < length ls)%nat) <$> seq 0 n,
        mk (Z.of_nat (length ls)) (Z.of_nat n - 1) ls
           (reuseableBytesID.mk
              (from_option Label.Name [] (ls !! (Nat.min n (length ls) - 1)%nat ≫=
                 λ l, if bool_decide (n = O) then None else Some l)))
           (reuseableBytesID.mk
              (from_option Label.Value [] (ls !! (Nat.min n (length ls) - 1)%nat ≫=
                 λ l, if bool_decide (n = O) then None else Some l)))
           (tag i)).
Proof.
  intros ls i Hn.
  assert (Hgen : ∀ m (j : tagIterator.t),
    Z.of_nat (m + n) < 2 ^ 63 →
    labels j = ls → numTags j = Z.of_nat (length ls) →
    idx j = Z.of_nat m - 1 →
    Nexts n j =
    Some ((λ k, bool_decide (k < length ls)%nat) <$> seq m n,
          mk (Z.of_nat (length ls)) (Z.of_nat (m + n) - 1) ls
             (if bool_decide (n = O) then nameBytes j else
              if bool_decide (m < length ls)%nat then
                reuseableBytesID.mk
                  (from_option Label.Name [] (ls !! (Nat.min (m + n) (length ls) - 1)%nat))
              else nameBytes j)
             (if bool_decide (n = O) then valueBytes j else
              if bool_decide (m < length ls)%nat then
                reuseableBytesID.mk
                  (from_option Label.Value [] (ls !! (Nat.min (m + n) (length ls) - 1)%nat))
              else valueBytes j)
             (tag j))).
  { clear Hn. induction n as [|n IH]; intros m j Hmn Hl Hnum Hidx.
    - rewrite !(bool_decide_eq_true_2 (O = O)) by done.
      rewrite Nat.add_0_r. destruct j as [nt ix lb nb vb tg].
      simpl in *. by subst.
    - simpl. unfold Next at 1. rewrite Hidx, Hnum, Hl.
      rewrite wrap_int_small by lia.
      replace (Z.of_nat m - 1 + 1) with (Z.of_nat m) by lia.
      destruct (Z.ltb_spec (Z.of_nat m) (Z.of_nat (length ls))) as [Hlt|Hge]; simpl.
      + rewrite index_nat.
        destruct (lookup_lt_is_Some_2 ls m) as [l Hlm]; [lia|]. rewrite Hlm. simpl.
        rewrite (IH (S m)); [|lia|done|done|cbn [idx]; lia].
        cbn [mbind option_bind nameBytes valueBytes tag fmap list_fmap seq].
        rewrite (bool_decide_eq_true_2 (m < length ls)%nat) by lia.
        rewrite ?(bool_decide_eq_false_2 (S n = O)) by done.
        replace (m + S n)%nat with (S m + n)%nat by lia.
        unfold reuseableBytesID.reset.
        do 3 f_equal.
        * repeat case_bool_decide; try done; f_equal;
            (replace ((S m + n) `min` length ls - 1)%nat with m by lia);
            by rewrite Hlm.
        * repeat case_bool_decide; try done; f_equal;
            (replace ((S m + n) `min` length ls - 1)%nat with m by lia);
            by rewrite Hlm.
      + rewrite (IH (S m)); [|lia|done|done|cbn [idx]; lia].
        cbn [mbind option_bind nameBytes valueBytes tag fmap list_fmap seq].
        rewrite !(bool_decide_eq_false_2 (m < length ls)%nat) by lia.
        rewrite !(bool_decide_eq_false_2 (S m < length ls)%nat) by lia.
        rewrite ?(bool_decide_eq_false_2 (S n = O)) by done.
        replace (m + S n)%nat with (S m + n)%nat by lia.
        do 3 f_equal; by case_bool_decide. }
  rewrite (Hgen O (Reset ls i)); simpl; [|lia|done|done|done].
  do 3 f_equal.
  - destruct (bool_decide (n = O)) eqn:Hn0.
    + by destruct (ls !! _).
    + destruct (bool_decide (0 < length ls)%nat) eqn:Hls.
      * by destruct (ls !! _).
      * apply bool_decide_eq_false in Hls. destruct ls; [|simpl in Hls; lia].
        done.
  - destruct (bool_decide (n = O)) eqn:Hn0.
    + by destruct (ls !! _).
    + destruct (bool_decide (0 < length ls)%nat) eqn:Hls.
      * by destruct (ls !! _).
      * apply bool_decide_eq_false in Hls. destruct ls; [|simpl in Hls; lia].
        done.
Qed.


Lemma read_own i :
  tag i = (nameCell, valueCell) →
  read i (Current i) =
  (reuseableBytesID.bytes (nameBytes i), reuseableBytesID.bytes (valueBytes i)).
Proof. unfold read, Current. by intros ->. Qed.

(** X5: after a [Reset], the calls of [Next()] visit the labels in order:
    the call number [k + 1] returns true when there is a label [k]; the tag
    of [Current()], which is the same tag as before the call, then shows the
    name and value of label [k]; [CurrentIndex()] is [k], and [Remaining()]
    is the number of labels minus [k], so still all of them after the first
    call.  (A slice has fewer than 2^63 elements.) *)
Theorem tagIterator_visits_labels_in_order ls i (k : nat) l :
  tag i = (nameCell, valueCell) →
  ls !! k = Some l →
  Z.of_nat (length ls) < 2 ^ 63 →
  ∃ i',
    Nexts (S k) (Reset ls i) = Some (replicate (S k) true, i') ∧
    Current i' = Current (Reset ls i) ∧
    read i' (Current (Reset ls i)) = (Label.Name l, Label.Value l) ∧
    CurrentIndex i' = Z.of_nat k ∧
    Remaining i' = Z.of_nat (length ls) - Z.of_nat k.
Proof.
  intros Htag Hl Hlen. pose proof (lookup_lt_Some _ _ _ Hl) as Hlt.
  rewrite Nexts_after_Reset by lia. eexists. split_and!.
  - f_equal. f_equal. clear -Hlt. revert Hlt. generalize (length ls). intros n Hlt.
    assert (Hgen : ∀ m j, (j + m ≤ n)%nat →
              (λ k0, bool_decide (k0 < n)%nat) <$> seq j m = replicate m true).
    { induction m as [|m IH]; intros j Hj; simpl; [done|].
      rewrite bool_decide_eq_true_2 by lia. f_equal. apply IH. lia. }
    apply Hgen. lia.
  - done.
  - unfold read, Current, Reset. cbn [tag]. rewrite Htag.
    cbn [fst snd deref nameBytes valueBytes reuseableBytesID.Bytes
         reuseableBytesID.bytes].
    rewrite Nat.min_l by lia. replace (S k - 1)%nat with k by lia.
    rewrite Hl. done.
  - unfold CurrentIndex. cbn [idx]. lia.
  - unfold Remaining. cbn [idx numTags].
    destruct (Z.ltb_spec (Z.of_nat (S k) - 1) 0); [lia|].
    rewrite wrap_int_small; lia.
Qed.

(** X6: [Next()] keeps counting after the last label.  The call after the
    last label and every later one return false; the tag still shows the
    last label (nothing, if there was none); and [Remaining()], which is 0
    after the first false, becomes negative with each further call. *)
Theorem tagIterator_past_the_end ls i (m : nat) :
  tag i = (nameCell, valueCell) →
  Z.of_nat (length ls + S m) < 2 ^ 63 →
  ∃ i',
    Nexts (length ls + S m) (Reset ls i)
    = Some (replicate (length ls) true ++ replicate (S m) false, i') ∧
    read i' (Current i')
    = from_option (λ l, (Label.Name l, Label.Value l)) ([], []) (last ls) ∧
    Remaining i' = - Z.of_nat m.
Proof.
  intros Htag Hm. rewrite Nexts_after_Reset by done. eexists. split_and!.
  - f_equal. f_equal. rewrite seq_app, fmap_app. f_equal.
    + generalize (length ls). intros n.
      assert (Hgen : ∀ k j, (j + k ≤ n)%nat →
                (λ k0, bool_decide (k0 < n)%nat) <$> seq j k = replicate k true).
      { induction k as [|k IH]; intros j Hj; simpl; [done|].
        rewrite bool_decide_eq_true_2 by lia. f_equal. apply IH. lia. }
      apply Hgen. lia.
    + generalize (length ls). intros n.
      assert (Hgen : ∀ k j, (n ≤ j)%nat →
                (λ k0, bool_decide (k0 < n)%nat) <$> seq j k = replicate k false).
      { induction k as [|k IH]; intros j Hj; simpl; [done|].
        rewrite bool_decide_eq_false_2 by lia. f_equal. apply IH. lia. }
      apply Hgen. lia.
  - rewrite read_own by done. simpl.
    rewrite Nat.min_r by lia.
    rewrite (bool_decide_eq_false_2 (length ls + S m = O)%nat) by lia.
    rewrite last_lookup. replace (pred (length ls)) with (length ls - 1)%nat by lia.
    by destruct (ls !! _).
  - unfold Remaining. cbn [idx numTags].
    destruct (Z.ltb_spec (Z.of_nat (length ls + S m) - 1) 0); [lia|].
    rewrite wrap_int_small; lia.
Qed.

(** X7: [Restart()] and [Duplicate()] rewind.  Wherever the iterator stands
    after a [Reset] and some calls of [Next()], [Restart()] puts it back
    exactly where the [Reset] had put it, so the same calls give the same
    results again, and [Duplicate()] gives a new iterator over the same
    labels at its start. *)
Theorem tagIterator_Restart_rewinds n ls i rs i' :
  Nexts n (Reset ls i) = Some (rs, i') →
  Restart i' = Reset ls i ∧
  Nexts n (Restart i') = Some (rs, i') ∧
  Duplicate i' = Reset ls newTagIterator.
Proof.
  intros Hn. pose proof (Nexts_keeps _ _ _ _ Hn) as (Hl & _ & Ht & _).
  simpl in Hl, Ht.
  assert (Hr : Restart i' = Reset ls i).
  { unfold Restart, Reset. rewrite Hl, Ht. done. }
  split_and!; [done|by rewrite Hr|].
  unfold Duplicate. by rewrite Hl.
Qed.

End TagIterator.

(** ** The order of [labelsByName] *)

Lemma bytes_Compare_cases a b :
  bytes_Compare a b = -1 ∨ bytes_Compare a b = 0 ∨ bytes_Compare a b = 1.
Proof.
  revert b. induction a as [|x a IH]; intros [|y b]; simpl; auto.
  destruct (N.compare _ _); auto.
Qed.

Lemma bytes_Compare_eq a b : bytes_Compare a b = 0 ↔ a = b.
Proof.
  revert b. induction a as [|x a IH]; intros [|y b]; simpl; try done.
  destruct (N.compare_spec (Byte.to_N x) (Byte.to_N y)) as [Heq|Hlt|Hgt].
  - assert (x = y) as ->.
    { pose proof (Byte.of_to_N x) as Hx. rewrite Heq, Byte.of_to_N in Hx.
      by injection Hx. }
    rewrite IH. split; [by intros ->|by intros [= ->]].
  - split; [done|]. intros [= -> _]. lia.
  - split; [done|]. intros [= -> _]. lia.
Qed.

Lemma bytes_Compare_flip a b : bytes_Compare b a = - bytes_Compare a b.
Proof.
  revert b. induction a as [|x a IH]; intros [|y b]; simpl; try done.
  rewrite (N.compare_antisym (Byte.to_N x)).
  destruct (N.compare (Byte.to_N x) (Byte.to_N y)); simpl; [apply IH|done|done].
Qed.

Lemma bytes_Compare_trans a b c :
  bytes_Compare a b < 0 → bytes_Compare b c < 0 → bytes_Compare a c < 0.
Proof.
  revert b c. induction a as [|x a IH]; intros [|y b] [|z c]; simpl; try lia.
  destruct (N.compare_spec (Byte.to_N x) (Byte.to_N y)) as [Hxy|Hxy|Hxy];
    destruct (N.compare_spec (Byte.to_N y) (Byte.to_N z)) as [Hyz|Hyz|Hyz];
    try lia.
  - rewrite Hxy, Hyz, N.compare_refl. apply IH.
  - intros _ _. rewrite Hxy. by rewrite (proj2 (N.compare_lt_iff _ _) Hyz).
  - intros _ _. rewrite <- Hyz. by rewrite (proj2 (N.compare_lt_iff _ _) Hxy).
  - intros _ _. assert (Hxz : (Byte.to_N x < Byte.to_N z)%N) by lia.
    by rewrite (proj2 (N.compare_lt_iff _ _) Hxz).
Qed.

(** X8: [Less] is a strict total order on the names, which is what
    [sort.Sort] needs to put the labels in order: within the slice, no label
    is less than itself, [Less] is transitive, two different names are
    ordered one way or the other, and never both ways. *)
Theorem labelsByName_Less_strict_order l i j k li lj lk :
  index l i = Some li → index l j = Some lj → index l k = Some lk →
  labelsByName.Less l i i = Some false ∧
  (labelsByName.Less l i j = Some true →
   labelsByName.Less l j k = Some true →
   labelsByName.Less l i k = Some true) ∧
  (labelsByName.Less l i j = Some true → labelsByName.Less l j i = Some false) ∧
  (Label.Name li ≠ Label.Name lj →
   labelsByName.Less l i j = Some true ∨ labelsByName.Less l j i = Some true).
Proof.
  intros Hi Hj Hk. unfold labelsByName.Less. rewrite Hi, Hj, Hk. simpl.
  split_and!.
  - f_equal. rewrite (proj2 (bytes_Compare_eq _ _) eq_refl). done.
  - intros [= H1] [= H2]. f_equal. apply Z.ltb_lt.
    apply Z.ltb_lt in H1, H2. by eapply bytes_Compare_trans.
  - intros [= H1]. f_equal. apply Z.ltb_lt in H1. apply Z.ltb_ge.
    rewrite bytes_Compare_flip. lia.
  - intros Hne.
    destruct (bytes_Compare_cases (Label.Name li) (Label.Name lj)) as [H|[H|H]].
    + left. f_equal. apply Z.ltb_lt. lia.
    + by apply bytes_Compare_eq in H.
    + right. f_equal. apply Z.ltb_lt. rewrite bytes_Compare_flip. lia.
Qed.

(** X4, on a new iterator. *)
Lemma tagIterator_Next_safe_witness :
  tagIterator.wf tagIterator.newTagIterator ∧
  tagIterator.idx tagIterator.newTagIterator < 2 ^ 63 - 1 ∧
  ∃ r i', tagIterator.Next tagIterator.newTagIterator = Some (r, i') ∧
          tagIterator.wf i' ∧
          (r = true ↔
           tagIterator.idx tagIterator.newTagIterator + 1
           < Z.of_nat (length (tagIterator.labels tagIterator.newTagIterator))).
Proof.
  destruct tagIterator_Next_safe as (Hnew & _ & _ & Hnext).
  split; [exact Hnew|]. split; [reflexivity|].
  apply (Hnext tagIterator.newTagIterator Hnew). reflexivity.
Defined.

(** X5, on the second of [sample_labels]. *)
Lemma tagIterator_visits_labels_in_order_witness :
  ∃ i',
    tagIterator.Nexts 2 (tagIterator.Reset sample_labels tagIterator.newTagIterator)
    = Some ([true; true], i') ∧
    tagIterator.Current i'
    = tagIterator.Current (tagIterator.Reset sample_labels tagIterator.newTagIterator) ∧
    tagIterator.read i'
      (tagIterator.Current (tagIterator.Reset sample_labels tagIterator.newTagIterator))
    = ([Byte.x62], [Byte.x32]) ∧
    tagIterator.CurrentIndex i' = 1 ∧
    tagIterator.Remaining i' = 3 - 1.
Proof.
  apply (tagIterator_visits_labels_in_order sample_labels tagIterator.newTagIterator
           1 (Label.mk [Byte.x62] [Byte.x32])); reflexivity.
Defined.

(** X6, two calls past the three [sample_labels]. *)
Lemma tagIterator_past_the_end_witness :
  ∃ i',
    tagIterator.Nexts 5 (tagIterator.Reset sample_labels tagIterator.newTagIterator)
    = Some ([true; true; true; false; false], i') ∧
    tagIterator.read i' (tagIterator.Current i')
    = ([Byte.x62; Byte.x61], [Byte.x33]) ∧
    tagIterator.Remaining i' = - 1.
Proof.
  apply (tagIterator_past_the_end sample_labels tagIterator.newTagIterator 1);
    reflexivity.
Defined.

(** X7, after two of the three [sample_labels]. *)
Lemma tagIterator_Restart_rewinds_witness :
  let start := tagIterator.Reset sample_labels tagIterator.newTagIterator in
  let i' := from_option snd start (tagIterator.Nexts 2 start) in
  tagIterator.Restart i' = start ∧
  tagIterator.Nexts 2 (tagIterator.Restart i') = Some ([true; true], i') ∧
  tagIterator.Duplicate i' = start.
Proof.
  apply (tagIterator_Restart_rewinds 2 sample_labels tagIterator.newTagIterator).
  reflexivity.
Defined.

(** X8, on the first two of [sample_labels]. *)
Lemma labelsByName_Less_strict_order_witness :
  labelsByName.Less sample_labels 0 0 = Some false ∧
  (labelsByName.Less sample_labels 0 1 = Some true →
   labelsByName.Less sample_labels 1 2 = Some true →
   labelsByName.Less sample_labels 0 2 = Some true) ∧
  (labelsByName.Less sample_labels 0 1 = Some true →
   labelsByName.Less sample_labels 1 0 = Some false) ∧
  ([Byte.x61] ≠ [Byte.x62] →
   labelsByName.Less sample_labels 0 1 = Some true ∨
   labelsByName.Less sample_labels 1 0 = Some true).
Proof.
  apply (labelsByName_Less_strict_order sample_labels 0 1 2
           (Label.mk [Byte.x61] [Byte.x31]) (Label.mk [Byte.x62] [Byte.x32])
           (Label.mk [Byte.x62; Byte.x61] [Byte.x33])); reflexivity.
Defined.

(** ** [promTSIter] *)

Section PromTSIter.

Context `{WriteExternals}.

Import promTSIter.

Implicit Types (i : promTSIter.t) (series : list TimeSeries.t).

Lemma promTSIter_Next_keeps i r i' :
  Next i = Some (r, i') →
  timeseries i' = timeseries i ∧ results i' = results i ∧
  prealloc i' = prealloc i ∧ tagOpts i' = tagOpts i ∧
  tagIterator.tag (tagIter i') = tagIterator.tag (tagIter i).
Proof.
  unfold Next. destruct (wrap_int (idx i + 1) <? _); simpl.
  - destruct (index _ _); simpl; [|done]. by intros [= <- <-].
  - by intros [= <- <-].
Qed.

Lemma tagIterator_Reset_Reset ls ls' t :
  tagIterator.Reset ls (tagIterator.Reset ls' t) = tagIterator.Reset ls t.
Proof. done. Qed.

Lemma promTSIter_Nexts_S n i :
  Nexts (S n) i =
  Next i ≫= λ '(r, i'), Nexts n i' ≫= λ '(rs, i''), Some (r :: rs, i'').
Proof. done. Qed.

(** From a state that stands just before series [m], [k + 1] calls of
    [Next()] reach series [m + k]. *)
Lemma promTSIter_Nexts_reach (k : nat) : ∀ (m : nat) i s,
  idx i = Z.of_nat m - 1 →
  timeseries i !! (m + k)%nat = Some s →
  Z.of_nat (length (timeseries i)) < 2 ^ 63 →
  Nexts (S k) i =
  Some (replicate (S k) true,
        mk (Z.of_nat (m + k)) (timeseries i) (results i) (prealloc i) (tagOpts i)
           (convert (TimeSeries.Samples s))
           (tagIterator.Reset (TimeSeries.Labels s) (tagIter i))).
Proof.
  induction k as [|k IH]; intros m i s Hidx Hs Hlen;
    pose proof (lookup_lt_Some _ _ _ Hs) as Hlt.
  - cbn [Nexts]. unfold Next. rewrite Hidx.
    rewrite wrap_int_small by lia.
    replace (Z.of_nat m - 1 + 1) with (Z.of_nat m) by lia.
    destruct (Z.ltb_spec (Z.of_nat m) (Z.of_nat (length (timeseries i)))); [|lia].
    cbn [negb]. rewrite index_nat. rewrite Nat.add_0_r in Hs. rewrite Hs.
    cbn. rewrite Nat.add_0_r. done.
  - rewrite promTSIter_Nexts_S. unfold Next at 1. rewrite Hidx.
    rewrite wrap_int_small by lia.
    replace (Z.of_nat m - 1 + 1) with (Z.of_nat m) by lia.
    destruct (Z.ltb_spec (Z.of_nat m) (Z.of_nat (length (timeseries i)))); [|lia].
    cbn [negb]. rewrite index_nat.
    destruct (lookup_lt_is_Some_2 (timeseries i) m) as [s0 Hs0]; [lia|].
    rewrite Hs0. cbn [mbind option_bind].
    rewrite (IH (S m) _ s); cbn [idx timeseries]; [| lia | | done].
    + cbn. rewrite tagIterator_Reset_Reset.
      replace (S (m + k)) with (m + S k)%nat by lia. done.
    + by replace (S m + k)%nat with (m + S k)%nat by lia.
Qed.

(** From a state that stands at or after the last series, every call of
    [Next()] returns false and only moves the index. *)
Lemma promTSIter_Nexts_end (n : nat) : ∀ (m : nat) i,
  idx i = Z.of_nat m - 1 →
  (length (timeseries i) ≤ m)%nat →
  Z.of_nat (m + n) < 2 ^ 63 →
  Nexts n i =
  Some (replicate n false,
        mk (Z.of_nat (m + n) - 1) (timeseries i) (results i) (prealloc i)
           (tagOpts i) (datapoints i) (tagIter i)).
Proof.
  induction n as [|n IH]; intros m i Hidx Hm Hmax.
  - cbn. rewrite Nat.add_0_r, <- Hidx. by destruct i.
  - rewrite promTSIter_Nexts_S. unfold Next at 1. rewrite Hidx.
    rewrite wrap_int_small by lia.
    replace (Z.of_nat m - 1 + 1) with (Z.of_nat m) by lia.
    destruct (Z.ltb_spec (Z.of_nat m) (Z.of_nat (length (timeseries i)))); [lia|].
    cbn [negb mbind option_bind].
    rewrite (IH (S m)); cbn [idx timeseries]; [|lia|lia|lia].
    cbn. replace (S (m + n)) with (m + S n)%nat by lia. done.
Qed.

Lemma promTSIter_Nexts_app (n n' : nat) : ∀ i rs i' rs' i'',
  Nexts n i = Some (rs, i') → Nexts n' i' = Some (rs', i'') →
  Nexts (n + n') i = Some (rs ++ rs', i'').
Proof.
  induction n as [|n IH]; intros i rs i' rs' i''; cbn [Nexts Nat.add].
  - by intros [= <- <-].
  - destruct (Next i) as [[r i1]|]; cbn [mbind option_bind]; [|done].
    destruct (Nexts n i1) as [[rs1 i2]|] eqn:Hn; cbn [mbind option_bind]; [|done].
    intros [= <- <-] Hn'. rewrite (IH _ _ _ _ _ Hn Hn'). done.
Qed.

(** X9: the iterator visits the series in order.  After construction the
    call number [k + 1] of [Next()] returns true when there is a series [k],
    and [Current()] then returns the tag iterator reset to the sorted labels
    of that series, its samples converted one by one, and the unit
    millisecond. *)
Theorem promTSIter_visits_series_in_order series topts (k : nat) s :
  series !! k = Some s →
  Z.of_nat (length series) < 2 ^ 63 →
  ∃ i',
    Nexts (S k) (NewTimeSeriesIter series topts)
    = Some (replicate (S k) true, i') ∧
    Current i' =
      (Some (tagIterator.Reset (sort_Sort (TimeSeries.Labels s))
               tagIterator.newTagIterator),
       convert (TimeSeries.Samples s), Millisecond).
Proof.
  intros Hs Hlen. pose proof (lookup_lt_Some _ _ _ Hs) as Hlt.
  unfold NewTimeSeriesIter.
  rewrite (promTSIter_Nexts_reach k O _ (sorted s)); cbn [idx timeseries].
  - eexists. split; [done|]. unfold Current. cbn [idx timeseries tagIter datapoints].
    rewrite length_fmap.
    destruct (Z.eqb_spec (Z.of_nat (length series)) 0); [lia|].
    destruct (Z.ltb_spec (Z.of_nat (0 + k)) 0); [lia|].
    destruct (Z.leb_spec (Z.of_nat (length series)) (Z.of_nat (0 + k))); [lia|].
    done.
  - done.
  - cbn [Nat.add]. by rewrite list_lookup_fmap, Hs.
  - by rewrite length_fmap.
Qed.

(** X10: [Current()] returns nil, nil and the zero unit whenever the
    iterator does not stand on a series: after construction, after
    [Restart()], and after the [Next()] that returned false and any further
    one, although the iterator still holds the tag iterator and the
    datapoints of the last series then. *)
Theorem promTSIter_Current_nil_off_series series topts (m : nat) :
  Z.of_nat (length series + S m) < 2 ^ 63 →
  Current (NewTimeSeriesIter series topts) = (None, [], 0) ∧
  (∀ i, Current (Restart i) = (None, [], 0)) ∧
  ∃ i',
    Nexts (length series + S m) (NewTimeSeriesIter series topts)
    = Some (replicate (length series) true ++ replicate (S m) false, i') ∧
    Current i' = (None, [], 0) ∧
    datapoints i' =
      from_option (λ s, convert (TimeSeries.Samples s)) [] (last series).
Proof.
  intros Hmax.
  assert (Hoff : ∀ i, idx i < 0 → Current i = (None, [], 0)).
  { intros i Hi. unfold Current.
    destruct (Z.ltb_spec (idx i) 0); [|lia]. by rewrite orb_true_r. }
  split_and!; [by apply Hoff|intros i; by apply Hoff|].
  destruct (decide (length series = O)) as [Hz|Hnz].
  - destruct series; [|done]. cbn [length Nat.add] in *.
    unfold NewTimeSeriesIter.
    rewrite (promTSIter_Nexts_end (S m) O); cbn [idx timeseries fmap list_fmap length];
      [|done|lia|lia].
    eexists. split; [done|]. split; [|done].
    unfold Current. cbn. done.
  - destruct (lookup_lt_is_Some_2 series (length series - 1)) as [s Hs]; [lia|].
    assert (Hreach :=
      promTSIter_Nexts_reach (length series - 1) O
        (NewTimeSeriesIter series topts) (sorted s)).
    cbn [idx timeseries NewTimeSeriesIter] in Hreach.
    rewrite list_lookup_fmap, length_fmap in Hreach. cbn [Nat.add] in Hreach.
    rewrite Hs in Hreach. specialize (Hreach eq_refl eq_refl ltac:(lia)).
    replace (S (length series - 1)) with (length series) in Hreach by lia.
    match type of Hreach with
    | _ = Some (_, ?st) =>
        pose proof (promTSIter_Nexts_end (S m) (length series) st) as Hend
    end.
    cbn [idx timeseries] in Hend. rewrite length_fmap in Hend.
    specialize (Hend ltac:(lia) ltac:(lia) ltac:(lia)).
    rewrite (promTSIter_Nexts_app _ _ _ _ _ _ _ Hreach Hend).
    eexists. split; [done|]. split.
    + unfold Current. cbn [idx timeseries]. rewrite length_fmap.
      destruct (Z.leb_spec (Z.of_nat (length series))
                  (Z.of_nat (length series + S m) - 1)); [|lia].
      by rewrite orb_true_r.
    + cbn [datapoints]. rewrite last_lookup.
      replace (pred (length series)) with (length series - 1)%nat by lia.
      by rewrite Hs.
Qed.

(** *** The windows of the results *)

Lemma numDatapoints_cons s series :
  numDatapoints (s :: series)
  = (length (TimeSeries.Samples s) + numDatapoints series)%nat.
Proof.
  unfold numDatapoints. cbn [foldl Nat.add].
  generalize (length (TimeSeries.Samples s)). intros n.
  assert (Hgen : ∀ l a b,
            foldl (λ n promTS, (n + length (TimeSeries.Samples promTS))%nat) (a + b)%nat l
            = (a + foldl (λ n promTS, (n + length (TimeSeries.Samples promTS))%nat) b l)%nat).
  { induction l as [|x l IH]; intros a b; cbn [foldl]; [done|].
    rewrite <- Nat.add_assoc. apply IH. }
  rewrite <- (Nat.add_0_r n) at 1. apply Hgen.
Qed.

Lemma numDatapoints_app l1 l2 :
  numDatapoints (l1 ++ l2) = (numDatapoints l1 + numDatapoints l2)%nat.
Proof.
  induction l1 as [|s l1 IH]; [done|].
  rewrite <- app_comm_cons, !numDatapoints_cons, IH. lia.
Qed.

Lemma numDatapoints_take_S series k s :
  series !! k = Some s →
  numDatapoints (take (S k) series)
  = (numDatapoints (take k series) + length (TimeSeries.Samples s))%nat.
Proof.
  intros Hs. rewrite (take_S_r _ _ _ Hs), numDatapoints_app.
  rewrite numDatapoints_cons.
  change (numDatapoints []) with O. lia.
Qed.

Lemma numDatapoints_take_le series k :
  (numDatapoints (take k series) ≤ numDatapoints series)%nat.
Proof.
  rewrite <- (take_drop k series) at 2. rewrite numDatapoints_app. lia.
Qed.

Lemma numDatapoints_take_mono series k1 k2 :
  (k1 ≤ k2)%nat →
  (numDatapoints (take k1 series) ≤ numDatapoints (take k2 series))%nat.
Proof.
  intros Hk. replace (take k1 series) with (take k1 (take k2 series)).
  - apply numDatapoints_take_le.
  - rewrite take_take. f_equal. lia.
Qed.

(** The window of series [k] starts where the samples of the series before
    it end. *)
Lemma windows_lookup series : ∀ off k s,
  series !! k = Some s →
  windows off series !! k
  = Some (mkWindow (off + numDatapoints (take k series))
                   (length (TimeSeries.Samples s))).
Proof.
  induction series as [|s0 series IH]; intros off k s Hs; [done|].
  destruct k as [|k]; cbn [windows].
  - injection Hs as ->. cbn. by rewrite Nat.add_0_r.
  - cbn [lookup list_lookup] in *. rewrite (IH _ _ _ Hs).
    cbn [take]. rewrite numDatapoints_cons. do 2 f_equal. lia.
Qed.

(** Two samples of a request never share an element of the array. *)
Lemma slots_disjoint series k1 s1 j1 k2 s2 j2 :
  series !! k1 = Some s1 → (j1 < length (TimeSeries.Samples s1))%nat →
  series !! k2 = Some s2 → (j2 < length (TimeSeries.Samples s2))%nat →
  (numDatapoints (take k1 series) + j1 = numDatapoints (take k2 series) + j2)%nat →
  k1 = k2 ∧ j1 = j2.
Proof.
  intros Hs1 Hj1 Hs2 Hj2 Heq.
  destruct (Nat.lt_trichotomy k1 k2) as [Hlt|[->|Hgt]].
  - pose proof (numDatapoints_take_mono series (S k1) k2 ltac:(lia)) as Hm.
    rewrite (numDatapoints_take_S _ _ _ Hs1) in Hm. lia.
  - split; [done|lia].
  - pose proof (numDatapoints_take_mono series (S k2) k1 ltac:(lia)) as Hm.
    rewrite (numDatapoints_take_S _ _ _ Hs2) in Hm. lia.
Qed.

Lemma slot_within series k s j :
  series !! k = Some s → (j < length (TimeSeries.Samples s))%nat →
  (numDatapoints (take k series) + j < numDatapoints series)%nat.
Proof.
  intros Hs Hj. pose proof (numDatapoints_take_le series (S k)) as Hle.
  rewrite (numDatapoints_take_S _ _ _ Hs) in Hle. lia.
Qed.

(** The element of the array behind sample [j] of the series the iterator
    stands on. *)
Lemma slot_positioned i series (k : nat) s (j : Z) :
  idx i = Z.of_nat k → results i = windows O series → series !! k = Some s →
  slot i j =
  if (0 <=? j) && (j <? Z.of_nat (length (TimeSeries.Samples s)))
  then Some (numDatapoints (take k series) + Z.to_nat j)%nat
  else None.
Proof.
  intros Hi Hr Hs. unfold slot. rewrite Hi, Hr, index_nat.
  rewrite (windows_lookup _ _ _ _ Hs). done.
Qed.

Lemma slot_off_series i (j : Z) : idx i < 0 → slot i j = None.
Proof.
  intros Hi. unfold slot, index. by destruct (Z.ltb_spec (idx i) 0); [|lia].
Qed.

(** X11: results can be read and written exactly on the samples of the
    current series.  Before the first [Next()] and after [Restart()] every
    access panics; on series [k] an access with index [j] works exactly when
    [0 <= j < len(Samples)] of that series. *)
Theorem promTSIter_result_access series topts :
  (∀ i j r, idx i < 0 →
     DatapointResult j i = None ∧ DatapointState j i = None ∧
     SetDatapointResult j r i = None) ∧
  idx (NewTimeSeriesIter series topts) < 0 ∧
  (∀ i, idx (Restart i) < 0) ∧
  ∀ (k : nat) s, series !! k = Some s → Z.of_nat (length series) < 2 ^ 63 →
    ∃ i',
      Nexts (S k) (NewTimeSeriesIter series topts)
      = Some (replicate (S k) true, i') ∧
      ∀ j r,
        (is_Some (DatapointResult j i') ↔
         0 ≤ j < Z.of_nat (length (TimeSeries.Samples s))) ∧
        (is_Some (DatapointState j i') ↔
         0 ≤ j < Z.of_nat (length (TimeSeries.Samples s))) ∧
        (is_Some (SetDatapointResult j r i') ↔
         0 ≤ j < Z.of_nat (length (TimeSeries.Samples s))).
Proof.
  split_and!.
  - intros i j r Hi. unfold DatapointResult, DatapointState, SetDatapointResult.
    by rewrite slot_off_series.
  - cbn. lia.
  - intros i. cbn. lia.
  - intros k s Hs Hlen. unfold NewTimeSeriesIter.
    rewrite (promTSIter_Nexts_reach k O _ (sorted s)); cbn [idx timeseries];
      [|done|cbn [Nat.add]; by rewrite list_lookup_fmap, Hs|by rewrite length_fmap].
    eexists. split; [done|]. intros j r.
    unfold DatapointResult, DatapointState, SetDatapointResult.
    rewrite (slot_positioned _ series k s j); cbn [idx results prealloc]; [|done..].
    destruct (Z.leb_spec 0 j) as [Hj0|Hj0];
      destruct (Z.ltb_spec j (Z.of_nat (length (TimeSeries.Samples s)))) as [Hj1|Hj1];
      cbn [andb mbind option_bind].
    2-4: split_and!; (split; [by intros [? [=]]|lia]).
    pose proof (slot_within series k s (Z.to_nat j) Hs ltac:(lia)) as Hin.
    rewrite lookup_replicate_2 by done. cbn.
    split_and!; (split; [lia|eauto]).
Qed.

(** X12: a result that was set stays with its sample.  After
    [SetDatapointResult] on sample [j1] of series [k1], [DatapointResult]
    on the same sample returns it; and after [Restart()], on whatever sample
    [j2] of whatever series [k2] the iterator is moved to, [DatapointResult]
    returns that result if it is the same sample and the zero value if it is
    another one; the states are still nil. *)
Theorem promTSIter_result_round_trip series topts
    (k1 : nat) s1 (j1 : nat) r (k2 : nat) s2 (j2 : nat) :
  series !! k1 = Some s1 → (j1 < length (TimeSeries.Samples s1))%nat →
  series !! k2 = Some s2 → (j2 < length (TimeSeries.Samples s2))%nat →
  Z.of_nat (length series) < 2 ^ 63 →
  ∃ a a' b,
    Nexts (S k1) (NewTimeSeriesIter series topts)
    = Some (replicate (S k1) true, a) ∧
    SetDatapointResult (Z.of_nat j1) r a = Some a' ∧
    DatapointResult (Z.of_nat j1) a' = Some r ∧
    Nexts (S k2) (Restart a') = Some (replicate (S k2) true, b) ∧
    DatapointResult (Z.of_nat j2) b
    = Some (if bool_decide (k1 = k2 ∧ j1 = j2) then r else WriteQueryResult_zero) ∧
    DatapointState (Z.of_nat j2) b = Some None.
Proof.
  intros Hs1 Hj1 Hs2 Hj2 Hlen. unfold NewTimeSeriesIter.
  pose proof (slot_within series k1 s1 j1 Hs1 Hj1) as Hin1.
  pose proof (slot_within series k2 s2 j2 Hs2 Hj2) as Hin2.
  assert (Hb1 : (0 <=? Z.of_nat j1)
                && (Z.of_nat j1 <? Z.of_nat (length (TimeSeries.Samples s1))) = true).
  { apply andb_true_iff. split; [apply Z.leb_le|apply Z.ltb_lt]; lia. }
  assert (Hb2 : (0 <=? Z.of_nat j2)
                && (Z.of_nat j2 <? Z.of_nat (length (TimeSeries.Samples s2))) = true).
  { apply andb_true_iff. split; [apply Z.leb_le|apply Z.ltb_lt]; lia. }
  rewrite (promTSIter_Nexts_reach k1 O _ (sorted s1)); cbn [idx timeseries];
    [|done|cbn [Nat.add]; by rewrite list_lookup_fmap, Hs1|by rewrite length_fmap].
  eexists _, _, _. split; [reflexivity|]. split.
  { unfold SetDatapointResult.
    rewrite (slot_positioned _ series k1 s1); cbn [idx results prealloc]; [|done..].
    rewrite Hb1. cbn [mbind option_bind]. rewrite Nat2Z.id.
    rewrite lookup_replicate_2 by done. cbn [mbind option_bind writeState.state].
    reflexivity. }
  split.
  { unfold DatapointResult.
    rewrite (slot_positioned _ series k1 s1); cbn [idx results prealloc]; [|done..].
    rewrite Hb1. cbn [mbind option_bind]. rewrite Nat2Z.id.
    rewrite list_lookup_insert_eq by (by rewrite length_replicate). done. }
  split.
  { unfold Restart. cbn [idx timeseries results prealloc tagOpts tagIter].
    rewrite (promTSIter_Nexts_reach k2 O _ (sorted s2)); cbn [idx timeseries];
      [|done|cbn [Nat.add]; by rewrite list_lookup_fmap, Hs2|by rewrite length_fmap].
    reflexivity. }
  split.
  - unfold DatapointResult.
    rewrite (slot_positioned _ series k2 s2); cbn [idx results prealloc]; [|done..].
    rewrite Hb2. cbn [mbind option_bind]. rewrite Nat2Z.id.
    case_bool_decide as Hsame.
    + destruct Hsame as [-> ->]. rewrite Hs1 in Hs2. injection Hs2 as ->.
      rewrite list_lookup_insert_eq by (by rewrite length_replicate). done.
    + rewrite list_lookup_insert_ne.
      * by rewrite lookup_replicate_2.
      * intros Heq. apply Hsame. by eapply slots_disjoint.
  - unfold DatapointState.
    rewrite (slot_positioned _ series k2 s2); cbn [idx results prealloc]; [|done..].
    rewrite Hb2. cbn [mbind option_bind]. rewrite Nat2Z.id.
    destruct (decide ((numDatapoints (take k1 series) + j1)%nat
                      = (numDatapoints (take k2 series) + j2)%nat)) as [->|Hne].
    + rewrite list_lookup_insert_eq by (by rewrite length_replicate). done.
    + rewrite list_lookup_insert_ne by done. by rewrite lookup_replicate_2.
Qed.

End PromTSIter.

(** X9, on the second of [sample_series]. *)
Lemma promTSIter_visits_series_in_order_witness :
  ∃ i',
    promTSIter.Nexts 2 sample_iter
    = Some ([true; true], i') ∧
    promTSIter.Current i' =
      (Some (tagIterator.Reset (sort_by_name sample_labels)
               tagIterator.newTagIterator),
       promTSIter.convert [Sample.mk 20 3000], 2).
Proof.
  apply (promTSIter_visits_series_in_order (H := sample_externals) sample_series tt 1
           (TimeSeries.mk sample_labels [Sample.mk 20 3000])); reflexivity.
Defined.

(** X10, one call past the end of [sample_series]. *)
Lemma promTSIter_Current_nil_off_series_witness :
  promTSIter.Current sample_iter = (None, [], 0) ∧
  (∀ i, promTSIter.Current (promTSIter.Restart i) = (None, [], 0)) ∧
  ∃ i',
    promTSIter.Nexts 4 sample_iter
    = Some ([true; true; false; false], i') ∧
    promTSIter.Current i' = (None, [], 0) ∧
    promTSIter.datapoints i' = promTSIter.convert [Sample.mk 20 3000].
Proof.
  apply (promTSIter_Current_nil_off_series (H := sample_externals) sample_series tt 1). reflexivity.
Defined.

(** X11, on the first of [sample_series], which has two samples. *)
Lemma promTSIter_result_access_witness :
  ∃ i',
    promTSIter.Nexts 1 sample_iter
    = Some ([true], i') ∧
    ∀ j r,
      (is_Some (promTSIter.DatapointResult j i') ↔ 0 ≤ j < 2) ∧
      (is_Some (promTSIter.DatapointState j i') ↔ 0 ≤ j < 2) ∧
      (is_Some (promTSIter.SetDatapointResult j r i') ↔ 0 ≤ j < 2).
Proof.
  destruct (promTSIter_result_access (H := sample_externals) sample_series tt) as (_ & _ & _ & Hon).
  apply (Hon 0%nat (TimeSeries.mk (reverse sample_labels)
                      [Sample.mk 10 1000; Sample.mk 11 2000])); reflexivity.
Defined.

(** X12: a result set on the second sample of the first series, read on the
    only sample of the second one. *)
Lemma promTSIter_result_round_trip_witness :
  ∃ a a' b,
    promTSIter.Nexts 1 sample_iter
    = Some ([true], a) ∧
    promTSIter.SetDatapointResult 1 7 a = Some a' ∧
    promTSIter.DatapointResult 1 a' = Some 7 ∧
    promTSIter.Nexts 2 (promTSIter.Restart a') = Some ([true; true], b) ∧
    promTSIter.DatapointResult 0 b = Some 0 ∧
    promTSIter.DatapointState 0 b = Some None.
Proof.
  apply (promTSIter_result_round_trip (H := sample_externals) sample_series tt
           0 (TimeSeries.mk (reverse sample_labels)
                [Sample.mk 10 1000; Sample.mk 11 2000]) 1 7
           1 (TimeSeries.mk sample_labels [Sample.mk 20 3000]) 0);
    first [reflexivity | repeat constructor].
Defined.

(** ** The handler *)

Section Handler.

Context `{HandlerExternals}.

Import PromWriteHandler.

(** [parseRequest] by the outcome of its header part. *)
Lemma parseRequest_cases r :
  (∃ err, parseHeaders r = inl err ∧
          parseRequest r = (None, WriteOptions_zero, Some err, [])) ∨
  (∃ opts, parseHeaders r = inr opts ∧
     ((∃ err, parseRequest r =
                (None, WriteOptions_zero, Some err,
                 [Pool_Get; Call_ParsePromCompressedRequest; Pool_Put])) ∨
      (∃ err, parseRequest r =
                (None, WriteOptions_zero, Some err,
                 [Pool_Get; Call_ParsePromCompressedRequest; Call_Unmarshal;
                  Pool_Put])) ∨
      (∃ req, parseRequest r =
                (Some req, opts, None,
                 [Pool_Get; Call_ParsePromCompressedRequest; Call_Unmarshal;
                  Pool_Put])))).
Proof.
  unfold parseRequest. destruct (parseHeaders r) as [err|opts]; [left; eauto|].
  right. exists opts. split; [done|].
  destruct (ParsePromCompressedRequest r) as [err|dst]; [left; eauto|].
  destruct (proto_Unmarshal dst) as [err|req]; [right; left; eauto|].
  right. right. eauto.
Qed.

(** X13: [parseRequest] returns either an error, with a nil request and
    the zero options, or a request and no error; never both and never
    neither. *)
Theorem parseRequest_error_or_request r :
  let '(req, opts, err, _) := parseRequest r in
  (err ≠ None ∧ req = None ∧ opts = WriteOptions_zero) ∨
  (err = None ∧ req ≠ None).
Proof.
  destruct (parseRequest_cases r) as
    [(err & _ & ->)|(opts & _ & [(err & ->)|[(err & ->)|(req & ->)]])];
    [left|left|left|right]; done.
Qed.

(** X14: the headers are checked before the body is touched, and the
    buffer always goes back to the pool.  When the headers are rejected,
    [parseRequest] takes no buffer and calls no body parser; otherwise it
    takes one buffer, and puts one back as the last thing it does, also when
    the body does not parse. *)
Theorem parseRequest_pool_balance r :
  let '(_, _, _, evs) := parseRequest r in
  match parseHeaders r with
  | inl _ => evs = []
  | inr _ =>
      ∃ calls, evs = Pool_Get :: calls ++ [Pool_Put] ∧
               Forall (λ ev, is_Pool_Get ev = false ∧ is_Pool_Put ev = false) calls
  end.
Proof.
  destruct (parseRequest_cases r) as
    [(err & -> & ->)|(opts & -> & [(err & ->)|[(err & ->)|(req & ->)]])].
  - done.
  - exists [Call_ParsePromCompressedRequest]. split; [done|]. by repeat constructor.
  - exists [Call_ParsePromCompressedRequest; Call_Unmarshal].
    split; [done|]. by repeat constructor.
  - exists [Call_ParsePromCompressedRequest; Call_Unmarshal].
    split; [done|]. by repeat constructor.
Qed.

(** X15: what the headers do to the options of a request that is accepted.
    Without a metrics type (after trimming) the options are the zero
    options, whatever the storage policy header says.  With one, the
    downsampling rules are overridden by none; the write is overridden, by
    exactly the one parsed storage policy, exactly when the type is not the
    unaggregated one; an unaggregated request is only accepted with an empty
    storage policy. *)
Theorem parseRequest_options r req opts evs :
  parseRequest r = (Some req, opts, None, evs) →
  let v := strings_TrimSpace (Header_Get r MetricsTypeHeader) in
  let strPolicy := strings_TrimSpace (Header_Get r MetricsStoragePolicyHeader) in
  (v = "" → opts = WriteOptions_zero) ∧
  (v ≠ "" →
   ∃ metricsType,
     ParseMetricsType v = inr metricsType ∧
     DownsampleOverride opts = true ∧ DownsampleMappingRules opts = [] ∧
     if is_UnaggregatedMetricsType metricsType
     then strPolicy = "" ∧ WriteOverride opts = false ∧ WriteStoragePolicies opts = []
     else ∃ parsed, ParseStoragePolicy strPolicy = inr parsed ∧
                    WriteOverride opts = true ∧ WriteStoragePolicies opts = [parsed]).
Proof.
  intros Hp.
  destruct (parseRequest_cases r) as
    [(err & _ & Heq)|(opts' & Hh & [(err & Heq)|[(err & Heq)|(req' & Heq)]])];
    rewrite Heq in Hp; try done.
  injection Hp as <- <- <-. revert Hh. unfold parseHeaders. cbn zeta.
  case_bool_decide as Hv.
  - destruct (ParseMetricsType _) as [err|metricsType]; [done|].
    destruct (is_UnaggregatedMetricsType metricsType) eqn:Hun.
    + case_bool_decide as Hpol; [done|]. intros [= <-].
      split; [done|]. intros _. exists metricsType. rewrite Hun.
      split_and!; try done. all: by apply dec_stable.
    + destruct (ParseStoragePolicy _) as [err|parsed] eqn:Hpol; [done|].
      intros [= <-]. split; [done|]. intros _. exists metricsType. rewrite Hun.
      split_and!; try done. by exists parsed.
  - intros [= <-]. split; [done|]. intros Hne. exfalso. apply Hne.
    by apply dec_stable.
Qed.

(** *** [ServeHTTP] *)

Lemma tally_errors_counts errs :
  let '(numRegular, _, numBadRequest, _) := tally_errors errs in
  numBadRequest = Z.of_nat (length (List.filter is_bad_request errs)) ∧
  numRegular + numBadRequest = Z.of_nat (length errs).
Proof.
  unfold tally_errors.
  assert (Hgen : ∀ errs a s b t,
    let '(numRegular, _, numBadRequest, _) :=
      foldl (λ '(numRegular, lastRegularErr, numBadRequest, lastBadRequestErr) err,
               if IsBadRequestError err
               then (numRegular, lastRegularErr, numBadRequest + 1, Error err)
               else if IsInvalidParams err
               then (numRegular, lastRegularErr, numBadRequest + 1, Error err)
               else (numRegular + 1, Error err, numBadRequest, lastBadRequestErr))
            (a, s, b, t) errs in
    numBadRequest = b + Z.of_nat (length (List.filter is_bad_request errs)) ∧
    numRegular + numBadRequest = a + b + Z.of_nat (length errs)).
  { clear errs. induction errs as [|err errs IH]; intros a s b t.
    - cbn. lia.
    - cbn [foldl List.filter]. unfold is_bad_request at 1.
      destruct (IsBadRequestError err); cbn [orb].
      + specialize (IH a s (b + 1) (Error err)).
        destruct (foldl _ _ errs) as [[[nr lr] nb] lb]. cbn [length]. lia.
      + destruct (IsInvalidParams err).
        * specialize (IH a s (b + 1) (Error err)).
          destruct (foldl _ _ errs) as [[[nr lr] nb] lb]. cbn [length]. lia.
        * specialize (IH (a + 1) (Error err) b t).
          destruct (foldl _ _ errs) as [[[nr lr] nb] lb]. cbn [length]. lia. }
  specialize (Hgen errs 0 "" 0 "").
  destruct (foldl _ _ errs) as [[[nr lr] nb] lb]. lia.
Qed.

Lemma filter_length_all {A} (p : A → bool) (l : list A) :
  length (List.filter p l) = length l ↔ Forall (λ x, p x = true) l.
Proof.
  induction l as [|x l IH]; cbn [List.filter].
  - split; [by constructor|done].
  - pose proof (List.filter_length_le p l) as Hle.
    destruct (p x) eqn:Hp; cbn [length].
    + split.
      * intros [= Hl]. constructor; [done|]. by apply IH.
      * intros Hall. apply Forall_cons in Hall as [_ Hall]. f_equal. by apply IH.
    + split; [lia|]. intros Hall. apply Forall_cons in Hall as [Hx _]. congruence.
Qed.

Lemma filter_all {A} (p : A → bool) (l : list A) :
  Forall (λ x, p x = true) l → List.filter p l = l.
Proof.
  induction 1 as [|x l Hx _ IH]; cbn [List.filter]; [done|]. by rewrite Hx, IH.
Qed.

Lemma filter_none {A} (p : A → bool) (l : list A) :
  Forall (λ x, p x = false) l → List.filter p l = [].
Proof.
  induction 1 as [|x l Hx _ IH]; cbn [List.filter]; [done|]. by rewrite Hx, IH.
Qed.

Lemma record_latency_durations now series :
  Forall (λ ev, is_RecordDuration ev = true ∧ is_counter ev = false)
         (record_latency now series).
Proof.
  unfold record_latency. apply Forall_bind, Forall_true. intros promTS.
  apply Forall_bind, Forall_true. intros sample. by repeat constructor.
Qed.

Lemma record_latency_no_response now series :
  response_codes (record_latency now series) = [].
Proof.
  unfold response_codes.
  induction (record_latency_durations now series) as [|ev evs [Hd _] _ IH];
    [done|].
  cbn [mbind list_bind]. rewrite IH. by destruct ev.
Qed.

Lemma response_codes_app (evs evs' : list event) :
  response_codes (evs ++ evs') = response_codes evs ++ response_codes evs'.
Proof. unfold response_codes. apply bind_app. Qed.

(** What the parsing leaves in the log: no counter, no duration, no
    response, no call of the writer. *)
Lemma parseRequest_quiet r :
  let '(_, _, _, evs) := parseRequest r in
  List.filter is_counter evs = [] ∧ List.filter is_RecordDuration evs = [] ∧
  List.filter is_WriteBatch evs = [] ∧ response_codes evs = [].
Proof.
  destruct (parseRequest_cases r) as
    [(err & _ & ->)|(opts & _ & [(err & ->)|[(err & ->)|(req & ->)]])]; done.
Qed.

(** [ServeHTTP] by its three ways out. *)
Lemma ServeHTTP_cases tagOptions
    (WriteBatch : promTSIter.t → WriteOptions → option (list batchError)) now r :
  let '(req, opts, rErr, parsed) := parseRequest r in
  match rErr, req with
  | Some rErr, _ =>
      ServeHTTP tagOptions WriteBatch now r =
      Some (parsed ++ [Inc_writeErrorsClient; Http_Error (Inner rErr) (Code rErr)])
  | None, None => False
  | None, Some series =>
      match WriteBatch (promTSIter.NewTimeSeriesIter series tagOptions) opts with
      | None =>
          ServeHTTP tagOptions WriteBatch now r =
          Some (parsed ++ [Call_WriteBatch opts; Call_nowFn]
                ++ record_latency now series ++ [Inc_writeSuccess])
      | Some errs =>
          ∃ numRegular lastRegularErr lastBadRequestErr,
            let bad := Z.of_nat (length (List.filter is_bad_request errs)) in
            let status :=
              if forallb is_bad_request errs
              then StatusBadRequest else StatusInternalServerError in
            numRegular + bad = Z.of_nat (length errs) ∧
            ServeHTTP tagOptions WriteBatch now r =
            Some (parsed ++ [Call_WriteBatch opts; Call_nowFn]
                  ++ record_latency now series
                  ++ [if forallb is_bad_request errs
                      then Inc_writeErrorsClient else Inc_writeErrorsServer;
                      Log_Error (RemoteAddr r) status numRegular bad
                                lastRegularErr lastBadRequestErr;
                      Http_Error (resultErr numRegular lastRegularErr bad
                                            lastBadRequestErr) status])
      end
  end.
Proof.
  unfold ServeHTTP.
  destruct (parseRequest_cases r) as
    [(err & _ & ->)|(opts & _ & [(err & ->)|[(err & ->)|(series & ->)]])];
    [done..|].
  cbn [mbind option_bind].
  destruct (WriteBatch _ _) as [errs|]; [|by rewrite <- !app_assoc].
  pose proof (tally_errors_counts errs) as Hcounts.
  destruct (tally_errors errs) as [[[nr lr] nb] lb]. destruct Hcounts as [-> Hsum].
  exists nr, lr, lb. cbn zeta. split; [done|].
  assert (Hall : bool_decide (Z.of_nat (length (List.filter is_bad_request errs))
                              = Z.of_nat (length errs))
                 = forallb is_bad_request errs).
  { destruct (forallb is_bad_request errs) eqn:Hf.
    - apply bool_decide_eq_true. f_equal. apply filter_length_all.
      apply Forall_forall. intros x Hx. rewrite forallb_forall in Hf.
      apply Hf. by apply list_elem_of_In.
    - apply bool_decide_eq_false. intros Heq. apply Nat2Z.inj in Heq.
      apply filter_length_all in Heq.
      assert (forallb is_bad_request errs = true); [|congruence].
      apply forallb_forall. intros x Hx. rewrite Forall_forall in Heq.
      apply Heq. by apply list_elem_of_In. }
  rewrite Hall. by rewrite <- !app_assoc.
Qed.

(** X16: every request has exactly one outcome.  [ServeHTTP] never reads
    the series of a nil request; it increments exactly one of its three
    counters, once: the success counter when it writes no error response,
    the client error counter or the server error counter when it writes
    one, and the server error counter only with status 500. *)
Theorem ServeHTTP_one_outcome tagOptions
    (WriteBatch : promTSIter.t → WriteOptions → option (list batchError)) now r :
  ∃ evs,
    ServeHTTP tagOptions WriteBatch now r = Some evs ∧
    ((List.filter is_counter evs = [Inc_writeSuccess] ∧ response_codes evs = []) ∨
     (List.filter is_counter evs = [Inc_writeErrorsClient] ∧
      ∃ code, response_codes evs = [code]) ∨
     (List.filter is_counter evs = [Inc_writeErrorsServer] ∧
      response_codes evs = [StatusInternalServerError])).
Proof.
  pose proof (ServeHTTP_cases tagOptions WriteBatch now r) as Hc.
  pose proof (parseRequest_quiet r) as Hq.
  destruct (parseRequest r) as [[[req opts] rErr] parsed].
  destruct Hq as (Hq1 & _ & _ & Hq2).
  destruct rErr as [rErr|].
  - rewrite Hc. eexists. split; [done|]. right. left.
    rewrite List.filter_app, response_codes_app, Hq1, Hq2. cbn. eauto.
  - destruct req as [series|]; [|done].
    pose proof (record_latency_durations now series) as Hd.
    pose proof (record_latency_no_response now series) as Hn.
    assert (Hf : List.filter is_counter (record_latency now series) = []).
    { apply filter_none. eapply Forall_impl; [exact Hd|]. by intros ? [_ ?]. }
    destruct (WriteBatch _ _) as [errs|].
    + destruct Hc as (nr & lr & lb & _ & ->). eexists. split; [done|].
      rewrite !List.filter_app, !response_codes_app, Hq1, Hq2, Hf, Hn.
      destruct (forallb is_bad_request errs); cbn; eauto.
    + rewrite Hc. eexists. split; [done|]. left.
      rewrite !List.filter_app, !response_codes_app, Hq1, Hq2, Hf, Hn. done.
Qed.

(** X17: when the batch fails, the status is 400 and the client error
    counter is incremented exactly when every error of the batch is a bad
    request error or an invalid parameters error, which includes a batch
    error without errors; otherwise the status is 500 and the server error
    counter is incremented.  The two counts that are logged add up to the
    number of errors. *)
Theorem ServeHTTP_status tagOptions
    (WriteBatch : promTSIter.t → WriteOptions → option (list batchError))
    now r series opts parsed errs :
  parseRequest r = (Some series, opts, None, parsed) →
  WriteBatch (promTSIter.NewTimeSeriesIter series tagOptions) opts = Some errs →
  ∃ evs status numRegular numBadRequest lastRegularErr lastBadRequestErr,
    ServeHTTP tagOptions WriteBatch now r = Some evs ∧
    status = (if forallb is_bad_request errs then 400 else 500) ∧
    response_codes evs = [status] ∧
    List.filter is_counter evs =
      [if forallb is_bad_request errs
       then Inc_writeErrorsClient else Inc_writeErrorsServer] ∧
    Log_Error (RemoteAddr r) status numRegular numBadRequest
              lastRegularErr lastBadRequestErr ∈ evs ∧
    numRegular + numBadRequest = Z.of_nat (length errs).
Proof.
  intros Hp Hw.
  pose proof (ServeHTTP_cases tagOptions WriteBatch now r) as Hc.
  pose proof (parseRequest_quiet r) as Hq.
  rewrite Hp in Hc, Hq. rewrite Hw in Hc.
  destruct Hq as (Hq1 & _ & _ & Hq2).
  destruct Hc as (nr & lr & lb & Hsum & ->).
  pose proof (record_latency_durations now series) as Hd.
  pose proof (record_latency_no_response now series) as Hn.
  assert (Hf : List.filter is_counter (record_latency now series) = []).
  { apply filter_none. eapply Forall_impl; [exact Hd|]. by intros ? [_ ?]. }
  eexists _, _, nr, _, lr, lb. split; [done|]. split; [done|].
  rewrite !List.filter_app, !response_codes_app, Hq1, Hq2, Hf, Hn.
  split_and!.
  - by destruct (forallb is_bad_request errs).
  - by destruct (forallb is_bad_request errs).
  - rewrite !elem_of_app. right. right. right.
    apply elem_of_cons. right. apply elem_of_cons. left.
    unfold StatusBadRequest, StatusInternalServerError. done.
  - done.
Qed.

(** X18: the age of every sample is recorded, in order, as soon as the
    request has been parsed, whether the write succeeds or not, after the
    one call of the writer; a request that does not parse records no age
    and never reaches the writer. *)
Theorem ServeHTTP_latency tagOptions
    (WriteBatch : promTSIter.t → WriteOptions → option (list batchError)) now r :
  ∃ evs,
    ServeHTTP tagOptions WriteBatch now r = Some evs ∧
    match parseRequest r with
    | (Some series, opts, None, _) =>
        List.filter is_RecordDuration evs = record_latency now series ∧
        List.filter is_WriteBatch evs = [Call_WriteBatch opts]
    | _ =>
        List.filter is_RecordDuration evs = [] ∧
        List.filter is_WriteBatch evs = []
    end.
Proof.
  pose proof (ServeHTTP_cases tagOptions WriteBatch now r) as Hc.
  pose proof (parseRequest_quiet r) as Hq.
  destruct (parseRequest r) as [[[req opts] rErr] parsed].
  destruct Hq as (_ & Hq1 & Hq2 & _).
  destruct rErr as [rErr|].
  - rewrite Hc. eexists. split; [done|].
    rewrite !List.filter_app, Hq1, Hq2. by destruct req.
  - destruct req as [series|]; [|done].
    pose proof (record_latency_durations now series) as Hd.
    assert (Hf : List.filter is_RecordDuration (record_latency now series)
                 = record_latency now series).
    { apply filter_all. eapply Forall_impl; [exact Hd|]. by intros ? [? _]. }
    assert (Hw : List.filter is_WriteBatch (record_latency now series) = []).
    { apply filter_none. eapply Forall_impl; [exact Hd|].
      intros ev [Hev _]. by destruct ev. }
    destruct (WriteBatch _ _) as [errs|].
    + destruct Hc as (nr & lr & lb & _ & ->). eexists. split; [done|].
      rewrite !List.filter_app, Hq1, Hq2, Hf, Hw.
      destruct (forallb is_bad_request errs); cbn; by rewrite app_nil_r.
    + rewrite Hc. eexists. split; [done|].
      rewrite !List.filter_app, Hq1, Hq2, Hf, Hw. cbn. by rewrite app_nil_r.
Qed.

End Handler.

(** X15, on [sample_request]. *)
Lemma parseRequest_options_witness :
  let opts := sample_options in
  (strings_TrimSpace (Header_Get sample_request MetricsTypeHeader) = "" →
   opts = PromWriteHandler.WriteOptions_zero) ∧
  (strings_TrimSpace (Header_Get sample_request MetricsTypeHeader) ≠ "" →
   ∃ metricsType,
     ParseMetricsType (strings_TrimSpace (Header_Get sample_request MetricsTypeHeader))
     = inr metricsType ∧
     DownsampleOverride opts = true ∧ DownsampleMappingRules opts = [] ∧
     if is_UnaggregatedMetricsType metricsType
     then strings_TrimSpace (Header_Get sample_request MetricsStoragePolicyHeader) = "" ∧
          WriteOverride opts = false ∧ WriteStoragePolicies opts = []
     else ∃ parsed,
            ParseStoragePolicy
              (strings_TrimSpace (Header_Get sample_request MetricsStoragePolicyHeader))
            = inr parsed ∧
            WriteOverride opts = true ∧ WriteStoragePolicies opts = [parsed]).
Proof.
  apply (parseRequest_options (H0 := sample_handler_externals) sample_request
           sample_series _
           [Pool_Get; Call_ParsePromCompressedRequest; Call_Unmarshal; Pool_Put]).
  reflexivity.
Defined.

(** X17, on [sample_request] with a writer that fails once for a reason
    that is not the client's. *)
Lemma ServeHTTP_status_witness :
  ∃ evs status numRegular numBadRequest lastRegularErr lastBadRequestErr,
    PromWriteHandler.ServeHTTP (H0 := sample_handler_externals)
      tt failing_writer 5000000000 sample_request = Some evs ∧
    status = 500 ∧
    response_codes evs = [status] ∧
    List.filter is_counter evs = [Inc_writeErrorsServer] ∧
    Log_Error "10.0.0.1:4242" status numRegular numBadRequest
              lastRegularErr lastBadRequestErr ∈ evs ∧
    numRegular + numBadRequest = 2.
Proof.
  apply (ServeHTTP_status (H0 := sample_handler_externals)
           tt failing_writer 5000000000 sample_request sample_series
           sample_options
           [Pool_Get; Call_ParsePromCompressedRequest; Call_Unmarshal; Pool_Put]
           [mkBatchError true false "too old"; mkBatchError false false "timeout"]);
    reflexivity.
Defined.
